(** * CreateWcsWithSip: the SIP distortion fit of meas_astrom

    A shallow embedding of [src/sip/CreateWcsWithSip.cc] and the properties
    of its term indexer, design matrix builder, constructor checks and the
    forward and reverse coefficient fits.

    C++ [int] values are modelled as [Z].  Signed overflow is undefined
    behaviour in C++; the model agrees with the code on every run in which
    no [int] computation overflows.  The term indexer never overflows
    (lemma [indexToPQ_no_overflow]); the orders the constructor accepts are
    at most 9.  Two computations of the file can leave the range of [int]:
    [nTerms], from order 65536, and [ngrid2 = _ngrid*_ngrid], from a grid
    of 46341 points a side.  Memory is not modelled either: building a
    matrix or a vector always succeeds. *)

From Stdlib Require Import QArith Qabs.
From stdpp Require Import base numbers list option strings pretty.

Local Open Scope Z_scope.

(** ** Term indexer (lines 57-68) *)

Module TermIndexer.

(** The [for] loop of [indexToPQ].  The loop variable [decrement] strictly
    decreases and the loop stops once it is no longer positive, so
    [Z.to_nat decrement] iterations always suffice; [fuel] is that bound
    (lemma [indexToPQ_loop_unfold]). *)
Fixpoint indexToPQ_loop (fuel : nat) (p q decrement : Z) : Z * Z :=
  if bool_decide (q >= decrement) && bool_decide (decrement > 0) then
    match fuel with
    | O => (p, q)
    | S fuel' => indexToPQ_loop fuel' (p + 1) (q - decrement) (decrement - 1)
    end
  else (p, q).

Definition indexToPQ (index order : Z) : Z * Z :=
  indexToPQ_loop (Z.to_nat order) 0 index order.

(** [int nTerms = 0.5*order*(order+1)] (line 73): the product of two
    consecutive integers is even, so the double expression is an integer and
    its conversion to [int] is exact as long as the value is in the range
    of [int], which it is for the orders from 0 to 65535 (lemma
    [nTerms_int]); the conversion of a larger value is undefined. *)
Definition nTerms (order : Z) : Z := order * (order + 1) / 2.

(** The same loop on 32-bit [int]s, every result reduced to the range of
    [int]; lemma [indexToPQ_no_overflow] shows that the reduction never
    changes a value. *)
Definition int_min : Z := - 2 ^ 31.
Definition int_max : Z := 2 ^ 31 - 1.
Definition wrap (z : Z) : Z := (z - int_min) `mod` 2 ^ 32 + int_min.

Fixpoint indexToPQ_loop32 (fuel : nat) (p q decrement : Z) : Z * Z :=
  if bool_decide (q >= decrement) && bool_decide (decrement > 0) then
    match fuel with
    | O => (p, q)
    | S fuel' =>
        indexToPQ_loop32 fuel' (wrap (p + 1)) (wrap (q - decrement)) (wrap (decrement - 1))
    end
  else (p, q).

Definition indexToPQ32 (index order : Z) : Z * Z :=
  indexToPQ_loop32 (Z.to_nat order) 0 index order.

(** The index at which the pair [(p, q)] is found: the rows [0 .. p-1] hold
    [order], [order - 1], ... entries. *)
Definition pqToIndex (p q order : Z) : Z := p * order - p * (p - 1) / 2 + q.

End TermIndexer.

Import TermIndexer.

(** ** Outcomes of a call

    A call returns, throws one of the two exception types the file raises
    ([lsst::pex::exceptions]), or stops at a failed assertion: an [assert]
    of the source, or the index and size assertions of Eigen's accessors
    (with assertions compiled out these are undefined behaviour). *)

Inductive exn : Type :=
  | OutOfRangeError (msg : string)
  | LengthError (msg : string).

Inductive result (A : Type) : Type :=
  | Ok (a : A)
  | Throw (e : exn)
  | Abort.
Arguments Ok {A} a.
Arguments Throw {A} e.
Arguments Abort {A}.

#[global] Instance result_ret : MRet result := @Ok.
#[global] Instance result_bind : MBind result := λ A B f m,
  match m with
  | Ok a => f a
  | Throw e => Throw e
  | Abort => Abort
  end.

(** [assert(c)] *)
Definition assert (c : bool) : result unit := if c then Ok () else Abort.

(** [for (int i = lo; i < hi; ++i) body], threading the variables the body
    assigns. *)
Fixpoint for_each {S : Type} (body : Z → S → result S) (idxs : list Z) (s : S)
  : result S :=
  match idxs with
  | [] => Ok s
  | i :: rest => s' ← body i s; for_each body rest s'
  end.

Definition for_range {S : Type} (lo hi : Z) (body : Z → S → result S) (s : S)
  : result S :=
  for_each body (seqZ lo (hi - lo)) s.

(** ** Floating point

    The arithmetic of [double] is a parameter of the development: every
    theorem of the fit holds for any interpretation of these operations. *)

Class DoubleOps (D : Type) : Type := {
  of_int : Z → D;            (* conversion int -> double *)
  dadd : D → D → D;
  dsub : D → D → D;
  dmul : D → D → D;
  ddiv : D → D → D;
  dneg : D → D;
  dlt : D → D → bool;        (* a < b *)
  dabs : D → D;
  dpow : D → Z → D;          (* ::pow(x, n), n an int *)
  dsqrt : D → D;             (* ::sqrt *)
  to_float : D → D;          (* conversion double -> float *)
  to_int : D → Z;            (* conversion to int (truncation) *)
}.

Declare Scope double_scope.
Delimit Scope double_scope with D.
Infix "+" := dadd : double_scope.
Infix "-" := dsub : double_scope.
Infix "*" := dmul : double_scope.
Infix "/" := ddiv : double_scope.
Notation "- x" := (dneg x) : double_scope.

(** ** Eigen vectors and matrices

    Eigen is an external library; the few operations the file uses are
    modelled after their documented behaviour. *)

Section Eigen.
Context {D : Type} `{DoubleOps D}.

(** [Eigen::VectorXd] *)
Abbreviation VectorXd := (list D).

(** [Eigen::MatrixXd]: the rows, and the number of columns (which a matrix
    without rows still has). *)
Record MatrixXd : Type := mkMatrix {
  mat_cols : nat;
  mat_rows : list (list D);
}.

Definition rows (M : MatrixXd) : Z := Z.of_nat (length (mat_rows M)).
Definition cols (M : MatrixXd) : Z := Z.of_nat (mat_cols M).

(** [v[i]], [v(i)] *)
Definition vec_get (v : VectorXd) (i : Z) : result D :=
  if bool_decide (0 ≤ i) then
    match v !! Z.to_nat i with
    | Some x => Ok x
    | None => Abort
    end
  else Abort.

(** [M(i, j)] as a value *)
Definition mat_get (M : MatrixXd) (i j : Z) : result D :=
  if bool_decide (0 ≤ i) && bool_decide (0 ≤ j) then
    match mat_rows M !! Z.to_nat i with
    | Some row =>
        match row !! Z.to_nat j with
        | Some x => Ok x
        | None => Abort
        end
    | None => Abort
    end
  else Abort.

(** [M(i, j) = x] *)
Definition mat_set (M : MatrixXd) (i j : Z) (x : D) : result MatrixXd :=
  if bool_decide (0 ≤ i) && bool_decide (0 ≤ j) then
    match mat_rows M !! Z.to_nat i with
    | Some row =>
        if bool_decide (Z.to_nat j < length row)%nat then
          Ok (mkMatrix (mat_cols M)
                (<[Z.to_nat i := <[Z.to_nat j := x]> row]> (mat_rows M)))
        else Abort
    | None => Abort
    end
  else Abort.

(** [Eigen::MatrixXd::Zero(r, c)] for sizes that are not negative.  Eigen
    asserts [rows >= 0 && cols >= 0]; the callers check it before they
    build the matrix ([initialise]), or pass sizes that are never negative
    ([calculateCMatrix]: a length and [nTerms]). *)
Definition Zero (r c : Z) : MatrixXd :=
  mkMatrix (Z.to_nat c) (replicate (Z.to_nat r) (replicate (Z.to_nat c) (of_int 0))).

(** A matrix of [r] rows and [c] columns. *)
Definition mat_wf (M : MatrixXd) (r c : Z) : Prop :=
  rows M = r ∧ cols M = c ∧ Forall (λ row, Z.of_nat (length row) = c) (mat_rows M).

(** [v.cwiseAbs()] *)
Definition cwiseAbs (v : VectorXd) : VectorXd := dabs <$> v.

(** [v.maxCoeff()]: the running maximum, replaced when a later coefficient
    is greater; Eigen asserts that the vector is not empty. *)
Definition maxCoeff (v : VectorXd) : result D :=
  match v with
  | [] => Abort
  | x :: rest => Ok (foldl (λ m y, if dlt m y then y else m) x rest)
  end.

(** [v / s] *)
Definition vec_div (v : VectorXd) (s : D) : VectorXd := (λ x, (x / s)%D) <$> v.

(** ** Design matrix builder (lines 70-88) *)

Definition calculateCMatrix (axis1 axis2 : VectorXd) (order : Z) : result MatrixXd :=
  let nTerms := nTerms order in
  let n := Z.of_nat (length axis1) in
  let C := Zero n nTerms in
  for_range 0 n (λ i C,
    for_range 0 nTerms (λ j C,
      let pq := indexToPQ j order in
      let p := pq.1 in
      let q := pq.2 in
      assert (bool_decide (p + q < order));;
      a1 ← vec_get axis1 i;
      a2 ← vec_get axis2 i;
      mat_set C i j (dpow a1 p * dpow a2 q)%D) C) C.

(** The entries outside the triangle [p + q < order] of an
    [order] x [order] matrix are zero. *)
Definition off_triangle_zero (M : MatrixXd) (order : Z) : Prop :=
  ∀ p q, 0 ≤ p < order → 0 ≤ q < order → order ≤ p + q →
    mat_get M p q = Ok (of_int 0).

(** The monomial of term [j] at a sample: [x^p * y^q] with
    [(p, q) = indexToPQ(j, order)]. *)
Definition monomial (order : Z) (x y : D) (j : Z) : D :=
  (dpow x (indexToPQ j order).1 * dpow y (indexToPQ j order).2)%D.

(** The rows [0 .. k-1] of [C] hold the monomials of the samples. *)
Definition rows_filled (x y : VectorXd) (order : Z) (k : Z) (C : MatrixXd) : Prop :=
  ∀ (i : nat) xi yi j, Z.of_nat i < k → x !! i = Some xi → y !! i = Some yi →
    0 ≤ j < nTerms order → mat_get C (Z.of_nat i) j = Ok (monomial order xi yi j).

End Eigen.

Arguments MatrixXd D : clear implicits.
Abbreviation VectorXd D := (list D).

(** ** Geometry and coordinate transforms (external collaborators) *)

Section Geometry.
Context {D : Type} `{DoubleOps D}.

(** [afwGeom::Point2D] *)
Definition Point2D : Type := D * D.

(** [Eigen::Matrix2d], entries [M(0,0)], [M(0,1)], [M(1,0)], [M(1,1)] *)
Record Matrix2d : Type := mkMatrix2d { m00 : D; m01 : D; m10 : D; m11 : D }.

(** [M.inverse()] on a 2 x 2 matrix, Eigen's closed form: the adjugate
    times the reciprocal of the determinant. *)
Definition determinant (M : Matrix2d) : D := (m00 M * m11 M - m10 M * m01 M)%D.

Definition inverse (M : Matrix2d) : Matrix2d :=
  let invdet := (of_int 1 / determinant M)%D in
  mkMatrix2d (m11 M * invdet)%D (- m01 M * invdet)%D
             (- m10 M * invdet)%D (m00 M * invdet)%D.

(** [M * v] for a 2-vector *)
Definition mul_vec (M : Matrix2d) (v : D * D) : D * D :=
  ((m00 M * v.1 + m01 M * v.2)%D, (m10 M * v.1 + m11 M * v.2)%D).

(** Modelled from the spec: the linear transform class of the image
    library ([afwImg::Wcs]) is not part of this repository.  It is built by
    [Wcs(crval, crpix, CD)] from a reference point, a pixel origin and a
    2 x 2 linear map, and [getPixelOrigin] and [getCDMatrix] give the last
    two back. *)
Record Wcs : Type := mkWcs {
  wcs_crval : Point2D;
  wcs_crpix : Point2D;
  wcs_CD : Matrix2d;
}.

Definition getPixelOrigin (w : Wcs) : Point2D := wcs_crpix w.
Definition getCDMatrix (w : Wcs) : Matrix2d := wcs_CD w.

(** Modelled from the spec: the composite transform ([afwImg::TanWcs], not
    part of this repository) is the linear transform plus the four
    coefficient matrices, built by
    [TanWcs(crval, crpix, CD, sipA, sipB, sipAp, sipBp)]. *)
Record TanWcs : Type := mkTanWcs {
  tan_crval : Point2D;
  tan_crpix : Point2D;
  tan_CD : Matrix2d;
  tan_sipA : MatrixXd D;
  tan_sipB : MatrixXd D;
  tan_sipAp : MatrixXd D;
  tan_sipBp : MatrixXd D;
}.

(** Modelled from the spec: the integer rectangle of the geometry library
    ([afwGeom::Box2I]) is not part of this repository.  It is an axis-aligned
    rectangle of pixels given by its minimum corner and its dimensions;
    [include] extends it to the bounding box of itself and a point, [grow]
    moves every side outwards by a border, and a box without pixels is
    empty. *)
Record Box2I : Type := mkBox2I {
  box_min : Z * Z;
  box_dim : Z * Z;
}.

Definition emptyBox : Box2I := mkBox2I (0, 0) (0, 0).
Definition isEmpty (b : Box2I) : bool :=
  bool_decide ((box_dim b).1 = 0) && bool_decide ((box_dim b).2 = 0).
Definition getMinX (b : Box2I) : Z := (box_min b).1.
Definition getMinY (b : Box2I) : Z := (box_min b).2.
Definition getWidth (b : Box2I) : Z := (box_dim b).1.
Definition getHeight (b : Box2I) : Z := (box_dim b).2.
Definition getMaxX (b : Box2I) : Z := getMinX b + getWidth b - 1.
Definition getMaxY (b : Box2I) : Z := getMinY b + getHeight b - 1.

Definition include (b : Box2I) (pt : Z * Z) : Box2I :=
  if isEmpty b then mkBox2I pt (1, 1)
  else
    let lo := (Z.min (getMinX b) pt.1, Z.min (getMinY b) pt.2) in
    let hi := (Z.max (getMaxX b) pt.1, Z.max (getMaxY b) pt.2) in
    mkBox2I lo (1 + hi.1 - lo.1, 1 + hi.2 - lo.2).

Definition grow (b : Box2I) (buffer : Z * Z) : Box2I :=
  if isEmpty b then b
  else
    let dim := (getWidth b + 2 * buffer.1, getHeight b + 2 * buffer.2) in
    if bool_decide (dim.1 ≤ 0) || bool_decide (dim.2 ≤ 0) then emptyBox
    else mkBox2I (getMinX b - buffer.1, getMinY b - buffer.2) dim.

(** [B] is the bounding box of the points [pts]: it has pixels, contains
    every point, and each of its four sides passes through a point. *)
Definition is_bounding_box (B : Box2I) (pts : list (Z * Z)) : Prop :=
  0 < getWidth B ∧ 0 < getHeight B ∧
  (∀ pt, pt ∈ pts →
     getMinX B ≤ pt.1 ≤ getMaxX B ∧ getMinY B ≤ pt.2 ≤ getMaxY B) ∧
  (∃ pt, pt ∈ pts ∧ pt.1 = getMinX B) ∧ (∃ pt, pt ∈ pts ∧ pt.1 = getMaxX B) ∧
  (∃ pt, pt ∈ pts ∧ pt.2 = getMinY B) ∧ (∃ pt, pt ∈ pts ∧ pt.2 = getMaxY B).

End Geometry.

Arguments Point2D D : clear implicits.
Arguments Matrix2d D : clear implicits.
Arguments Wcs D : clear implicits.
Arguments TanWcs D : clear implicits.

(** What the fit asks of the libraries it is linked against: Eigen's SVD
    solver and the transforms of the WCS classes.  [Coord] is the type of a
    sky position ([afwCoord::IcrsCoord]). *)
Class Collaborators (D Coord : Type) : Type := {
  (* A.jacobiSvd(ComputeThinU | ComputeThinV).solve(b) *)
  jacobiSvdSolve : MatrixXd D → VectorXd D → VectorXd D;
  (* wcs.skyToIntermediateWorldCoord(c) *)
  skyToIntermediateWorldCoord : Wcs D → Coord → Point2D D;
  (* wcs.getSkyOrigin()->toFk5().getPosition(degrees) *)
  getSkyOriginFk5 : Wcs D → Point2D D;
  (* tanWcs.undistortPixel(pt) *)
  undistortPixel : TanWcs D → Point2D D → Point2D D;
}.

(** ** The fit *)

Section Fit.
Context {D Coord : Type} `{DoubleOps D} `{Collaborators D Coord}.

(** A match: the catalogue position of [match.first] and the observed
    position [(getX(), getY())] of [match.second]. *)
Record Match : Type := mkMatch {
  first_coord : Coord;
  second_x : D;
  second_y : D;
}.

(** The linear [Wcs] objects on the heap; a [Wcs::Ptr] or a reference is an
    index into it, [new Wcs(...)] and [clone()] add an object at the end.
    An object whose last [Ptr] is dropped stays in the list: releasing
    memory is not modelled.  The two [TanWcs] objects the constructor makes
    with [new] (lines 178 and 183) are not in this list: nothing else
    refers to them, and [_newWcs] holds the object itself. *)
Abbreviation heap := (list (Wcs D)).
Abbreviation ptr := nat.

Definition deref (h : heap) (l : ptr) : result (Wcs D) :=
  match h !! l with
  | Some w => Ok w
  | None => Abort
  end.

Definition new (h : heap) (w : Wcs D) : heap * ptr := (h ++ [w], length h).

(** The members of [CreateWcsWithSip<MatchT>] (the logger apart, which has
    no part in the results). *)
Record CreateWcsWithSip : Type := mkCreateWcsWithSip {
  _matches : list Match;
  _bbox : Box2I;
  _ngrid : Z;
  _linearWcs : ptr;
  _sipOrder : Z;
  _reverseSipOrder : Z;
  _sipA : MatrixXd D;
  _sipB : MatrixXd D;
  _sipAp : MatrixXd D;
  _sipBp : MatrixXd D;
  _newWcs : option (TanWcs D);
}.

Definition set_ngrid (this : CreateWcsWithSip) (n : Z) : CreateWcsWithSip :=
  mkCreateWcsWithSip (_matches this) (_bbox this) n (_linearWcs this)
    (_sipOrder this) (_reverseSipOrder this)
    (_sipA this) (_sipB this) (_sipAp this) (_sipBp this) (_newWcs this).

Definition set_bbox (this : CreateWcsWithSip) (b : Box2I) : CreateWcsWithSip :=
  mkCreateWcsWithSip (_matches this) b (_ngrid this) (_linearWcs this)
    (_sipOrder this) (_reverseSipOrder this)
    (_sipA this) (_sipB this) (_sipAp this) (_sipBp this) (_newWcs this).

Definition set_linearWcs (this : CreateWcsWithSip) (l : ptr) : CreateWcsWithSip :=
  mkCreateWcsWithSip (_matches this) (_bbox this) (_ngrid this) l
    (_sipOrder this) (_reverseSipOrder this)
    (_sipA this) (_sipB this) (_sipAp this) (_sipBp this) (_newWcs this).

Definition set_sipAB (this : CreateWcsWithSip) (AB : MatrixXd D * MatrixXd D)
  : CreateWcsWithSip :=
  mkCreateWcsWithSip (_matches this) (_bbox this) (_ngrid this) (_linearWcs this)
    (_sipOrder this) (_reverseSipOrder this)
    AB.1 AB.2 (_sipAp this) (_sipBp this) (_newWcs this).

Definition set_sipApBp (this : CreateWcsWithSip) (AB : MatrixXd D * MatrixXd D)
  : CreateWcsWithSip :=
  mkCreateWcsWithSip (_matches this) (_bbox this) (_ngrid this) (_linearWcs this)
    (_sipOrder this) (_reverseSipOrder this)
    (_sipA this) (_sipB this) AB.1 AB.2 (_newWcs this).

Definition set_newWcs (this : CreateWcsWithSip) (w : TanWcs D) : CreateWcsWithSip :=
  mkCreateWcsWithSip (_matches this) (_bbox this) (_ngrid this) (_linearWcs this)
    (_sipOrder this) (_reverseSipOrder this)
    (_sipA this) (_sipB this) (_sipAp this) (_sipBp this) (Some w).

(** *** Least-squares solver (lines 96-101) *)
Definition leastSquaresSolve (b : VectorXd D) (A : MatrixXd D) : result (VectorXd D) :=
  assert (bool_decide (rows A = Z.of_nat (length b)));;
  Ok (jacobiSvdSolve A b).

(** [_getCrvalAsGeomPoint] (lines 377-381) *)
Definition _getCrvalAsGeomPoint (h : heap) (this : CreateWcsWithSip)
  : result (Point2D D) :=
  lw ← deref h (_linearWcs this);
  Ok (getSkyOriginFk5 lw).

(** *** Forward fit: [_calculateForwardMatrices] (lines 187-279) *)

(** [std::max(a, b)] *)
Definition std_max (a b : D) : D := if dlt a b then b else a.

(** What the first half of the function computes: the pixel origin it read,
    the scale [norm] and the two solved coefficient vectors. *)
Record ForwardSolution : Type := mkForwardSolution {
  fs_crpix : Point2D D;
  fs_norm : D;
  fs_mu : VectorXd D;
  fs_nu : VectorXd D;
}.

(** Lines 191-226: the samples, their scaling and the two solves. *)
Definition forwardSolve (h : heap) (this : CreateWcsWithSip) : result ForwardSolution :=
  lw ← deref h (_linearWcs this);
  let crpix := getPixelOrigin lw in
  let iwc := (λ m, skyToIntermediateWorldCoord lw (first_coord m)) <$> _matches this in
  let iwc1 := fst <$> iwc in
  let iwc2 := snd <$> iwc in
  let u := (λ m, second_x m - crpix.1)%D <$> _matches this in
  let v := (λ m, second_y m - crpix.2)%D <$> _matches this in
  uMax ← maxCoeff (cwiseAbs u);
  vMax ← maxCoeff (cwiseAbs v);
  let norm := std_max uMax vMax in
  let u := vec_div u norm in
  let v := vec_div v norm in
  let ord := _sipOrder this in
  forwardC ← calculateCMatrix u v ord;
  mu ← leastSquaresSolve iwc1 forwardC;
  nu ← leastSquaresSolve iwc2 forwardC;
  Ok (mkForwardSolution crpix norm mu nu).

(** Lines 238-243: the refined CD matrix. *)
Definition refinedCD (ord : Z) (norm : D) (mu nu : VectorXd D) : result (Matrix2d D) :=
  nu_ord ← vec_get nu ord;
  nu_1 ← vec_get nu 1;
  mu_ord ← vec_get mu ord;
  mu_1 ← vec_get mu 1;
  Ok (mkMatrix2d (mu_ord / norm)%D (mu_1 / norm)%D (nu_ord / norm)%D (nu_1 / norm)%D).

(** Lines 247-249: the shift of the pixel origin. *)
Definition shiftedCrpix (crpix : Point2D D) (CDinv : Matrix2d D) (mu nu : VectorXd D)
  : result (Point2D D) :=
  mu0 ← vec_get mu 0;
  nu0 ← vec_get nu 0;
  Ok ((crpix.1 - (mu0 * m00 CDinv + nu0 * m01 CDinv))%D,
      (crpix.2 - (mu0 * m10 CDinv + nu0 * m11 CDinv))%D).

(** Lines 234-253: the three assertions on the term indexer, the refined
    linear transform, and its installation as [_linearWcs]. *)
Definition refineLinearWcs (h : heap) (this : CreateWcsWithSip) (sol : ForwardSolution)
  : result (heap * CreateWcsWithSip * Matrix2d D) :=
  let ord := _sipOrder this in
  assert (bool_decide (indexToPQ 0 ord = (0, 0)));;
  assert (bool_decide (indexToPQ 1 ord = (0, 1)));;
  assert (bool_decide (indexToPQ ord ord = (1, 0)));;
  CD ← refinedCD ord (fs_norm sol) (fs_mu sol) (fs_nu sol);
  let CDinv := inverse CD in
  crpix ← shiftedCrpix (fs_crpix sol) CDinv (fs_mu sol) (fs_nu sol);
  crval ← _getCrvalAsGeomPoint h this;
  let hl := new h (mkWcs crval crpix CD) in
  Ok (hl.1, set_linearWcs this hl.2, CDinv).

(** Lines 266-277: the body of the loop over the solved coefficients. *)
Definition forwardSipTerm (ord : Z) (CDinv : Matrix2d D) (norm : D) (mu nu : VectorXd D)
    (i : Z) (AB : MatrixXd D * MatrixXd D) : result (MatrixXd D * MatrixXd D) :=
  let pq := indexToPQ i ord in
  let p := pq.1 in
  let q := pq.2 in
  if bool_decide (p + q > 1) && bool_decide (p + q < ord) then
    mui ← vec_get mu i;
    nui ← vec_get nu i;
    let ab := mul_vec CDinv (mui, nui) in
    sipA ← mat_set AB.1 p q (ab.1 / dpow norm (p + q))%D;
    sipB ← mat_set AB.2 p q (ab.2 / dpow norm (p + q))%D;
    Ok (sipA, sipB)
  else Ok AB.

(** Lines 265-278: the loop, run up to (excluding) index [upto]; the source
    runs it to [mu.rows()]. *)
Definition forwardSipTerms (this : CreateWcsWithSip) (sol : ForwardSolution)
    (CDinv : Matrix2d D) (upto : Z) : result (MatrixXd D * MatrixXd D) :=
  for_range 1 upto
    (forwardSipTerm (_sipOrder this) CDinv (fs_norm sol) (fs_mu sol) (fs_nu sol))
    (_sipA this, _sipB this).

(** The terms the forward loop has written once it has run up to [upto]:
    those of total degree above 1 inside the triangle. *)
Definition forward_written (ord upto p q : Z) : Prop :=
  0 ≤ p ∧ 0 ≤ q ∧ 1 < p + q < ord ∧ pqToIndex p q ord < upto.

Definition _calculateForwardMatrices (h : heap) (this : CreateWcsWithSip)
  : result (heap * CreateWcsWithSip) :=
  sol ← forwardSolve h this;
  r ← refineLinearWcs h this sol;
  let '(h', this', CDinv) := r in
  AB ← forwardSipTerms this' sol CDinv (Z.of_nat (length (fs_mu sol)));
  Ok (h', set_sipAB this' AB).

(** *** Reverse fit: [_calculateReverseMatrices] (lines 281-349) *)


(** The divisor of the two grid spacings (lines 289 and 291). *)
Definition gridDivisor (this : CreateWcsWithSip) : Z := _ngrid this - 1.

(** The grid spacings [dx] and [dy] (lines 289 and 291). *)
Definition gridSpacing (this : CreateWcsWithSip) : D * D :=
  ((of_int (getWidth (_bbox this)) / of_int (gridDivisor this))%D,
   (of_int (getHeight (_bbox this)) / of_int (gridDivisor this))%D).

(** Lines 301-324: grid point [(i, j)]; the result is [U[k]], [V[k]],
    [delta1[k]], [delta2[k]]. *)
Definition gridSample (newWcs : TanWcs D) (x0 y0 : Z) (dx dy : D) (crpix : Point2D D)
    (i j : Z) : D * D * D * D :=
  let y := (of_int y0 + of_int i * dy)%D in
  let x := (of_int x0 + of_int j * dx)%D in
  let u := (x - crpix.1)%D in
  let v := (y - crpix.2)%D in
  let xy := undistortPixel newWcs ((x + of_int 1)%D, (y + of_int 1)%D) in
  let Uk := (xy.1 - of_int 1 - crpix.1)%D in
  let Vk := (xy.2 - of_int 1 - crpix.2)%D in
  (Uk, Vk, (u - Uk)%D, (v - Vk)%D).

(** Lines 283-339: the grid, its scaling and the two solves.  The counter
    [k] advances with the two nested loops, so the four vectors of length
    [ngrid2] are filled entry by entry in the order of the grid: the
    vectors are the lists of the [ngrid2] samples (lemma [grid_length]).
    The product [ngrid2] itself is not computed here, so the definition
    agrees with the source while that product is in the range of [int]. *)
Definition reverseSolve (this : CreateWcsWithSip)
  : result (D * VectorXd D * VectorXd D) :=
  newWcs ← (match _newWcs this with Some w => Ok w | None => Abort end);
  let ngrid := _ngrid this in
  let x0 := getMinX (_bbox this) in
  let dx := (gridSpacing this).1 in
  let y0 := getMinY (_bbox this) in
  let dy := (gridSpacing this).2 in
  let crpix := tan_crpix newWcs in
  let samples :=
    i ← seqZ 0 ngrid; j ← seqZ 0 ngrid; [gridSample newWcs x0 y0 dx dy crpix i j] in
  let U := (λ s, s.1.1.1) <$> samples in
  let V := (λ s, s.1.1.2) <$> samples in
  let delta1 := (λ s, s.1.2) <$> samples in
  let delta2 := (λ s, s.2) <$> samples in
  UMax ← maxCoeff (cwiseAbs U);
  VMax ← maxCoeff (cwiseAbs V);
  let norm := if dlt VMax UMax then UMax else VMax in
  let U := vec_div U norm in
  let V := vec_div V norm in
  let ord := _reverseSipOrder this in
  reverseC ← calculateCMatrix U V ord;
  tmpA ← leastSquaresSolve delta1 reverseC;
  tmpB ← leastSquaresSolve delta2 reverseC;
  Ok (norm, tmpA, tmpB).

(** Lines 343-347: the body of the loop over the solved coefficients. *)
Definition reverseSipTerm (ord : Z) (norm : D) (tmpA tmpB : VectorXd D)
    (j : Z) (AB : MatrixXd D * MatrixXd D) : result (MatrixXd D * MatrixXd D) :=
  let pq := indexToPQ j ord in
  let p := pq.1 in
  let q := pq.2 in
  a ← vec_get tmpA j;
  sipAp ← mat_set AB.1 p q (a / dpow norm (p + q))%D;
  b ← vec_get tmpB j;
  sipBp ← mat_set AB.2 p q (b / dpow norm (p + q))%D;
  Ok (sipAp, sipBp).

(** Lines 342-348: the loop, run up to (excluding) index [upto]; the source
    runs it to [tmpA.rows()]. *)
Definition reverseSipTerms (this : CreateWcsWithSip) (norm : D)
    (tmpA tmpB : VectorXd D) (upto : Z) : result (MatrixXd D * MatrixXd D) :=
  for_range 0 upto (reverseSipTerm (_reverseSipOrder this) norm tmpA tmpB)
    (_sipAp this, _sipBp this).

(** The terms the reverse loop has written once it has run up to [upto]:
    all those of the triangle. *)
Definition reverse_written (ord upto p q : Z) : Prop :=
  0 ≤ p ∧ 0 ≤ q ∧ p + q < ord ∧ pqToIndex p q ord < upto.

Definition _calculateReverseMatrices (this : CreateWcsWithSip) : result CreateWcsWithSip :=
  r ← reverseSolve this;
  let '(norm, tmpA, tmpB) := r in
  assert (bool_decide (length tmpA = length tmpB));;
  AB ← reverseSipTerms this norm tmpA tmpB (Z.of_nat (length tmpA));
  Ok (set_sipApBp this AB).

(** *** Constructor (lines 105-185) *)

(** Lines 114-125: the values of the member initialisers; [clone] is the
    object made by [linearWcs.clone()]. *)
Definition initialMembers (matches : list Match) (clone : ptr) (order : Z)
    (bbox : Box2I) (ngrid : Z) : CreateWcsWithSip :=
  let sipOrder := order + 1 in
  let reverseSipOrder := order + 2 in
  mkCreateWcsWithSip matches bbox ngrid clone sipOrder reverseSipOrder
    (Zero sipOrder sipOrder) (Zero sipOrder sipOrder)
    (Zero reverseSipOrder reverseSipOrder) (Zero reverseSipOrder reverseSipOrder)
    None.

(** Lines 114-125 as they run, before the body of the constructor: the
    clone, and the four [Zero] matrices, whose sizes [order + 1] and
    [order + 2] Eigen asserts not to be negative. *)
Definition initialise (h : heap) (matches : list Match) (linearWcs : ptr) (order : Z)
    (bbox : Box2I) (ngrid : Z) : result (heap * CreateWcsWithSip) :=
  lw ← deref h linearWcs;
  let hl := new h lw in
  assert (bool_decide (0 ≤ order + 1) && bool_decide (0 ≤ order + 2));;
  Ok (hl.1, initialMembers matches hl.2 order bbox ngrid).

(** Lines 127-143: the checks of the order and of the number of matches. *)
Definition checkArguments (this : CreateWcsWithSip) (order : Z) : result unit :=
  if bool_decide (order < 2) then
    Throw (OutOfRangeError "SIP must be at least 2nd order")
  else if bool_decide (_sipOrder this > 9) then
    Throw (OutOfRangeError
      ("SIP forward order " +:+ pretty (_sipOrder this) +:+
       " exceeds the convention limit of 9"))
  else if bool_decide (_reverseSipOrder this > 9) then
    Throw (OutOfRangeError
      ("SIP reverse order " +:+ pretty (_reverseSipOrder this) +:+
       " exceeds the convention limit of 9"))
  else if bool_decide (Z.of_nat (length (_matches this)) < _sipOrder this) then
    Throw (LengthError "Number of matches less than requested sip order")
  else Ok ().

(** Lines 145-147 *)
Definition defaultGrid (this : CreateWcsWithSip) : CreateWcsWithSip :=
  if bool_decide (_ngrid this ≤ 0) then set_ngrid this (5 * _sipOrder this) else this.

(** Line 163: the observed position as an integer point. *)
Definition pixelOf (m : Match) : Z * Z := (to_int (second_x m), to_int (second_y m)).

(** Lines 165-166: [borderFrac] is a [float]; its product with an [int] is
    taken in single precision and converted to [int]. *)
Definition borderFrac (nmatches : nat) : D :=
  to_float (of_int 1 / dsqrt (of_int (Z.of_nat nmatches)))%D.

Definition borderOf (frac : D) (extent : Z) : Z :=
  to_int (to_float (frac * to_float (of_int extent))%D).

(** Lines 156-169 *)
Definition guessBBox (this : CreateWcsWithSip) : CreateWcsWithSip :=
  if isEmpty (_bbox this) && negb (bool_decide (_matches this = [])) then
    let bbox := foldl (λ b m, include b (pixelOf m)) (_bbox this) (_matches this) in
    let frac := borderFrac (length (_matches this)) in
    let border := (borderOf frac (getWidth bbox), borderOf frac (getHeight bbox)) in
    set_bbox this (grow bbox border)
  else this.

(** Lines 178 and 183: the composite transform from the current members. *)
Definition makeTanWcs (crval crpix : Point2D D) (CD : Matrix2d D)
    (this : CreateWcsWithSip) : TanWcs D :=
  mkTanWcs crval crpix CD (_sipA this) (_sipB this) (_sipAp this) (_sipBp this).

(** The constructor.  [linearWcs] is the caller's object; the result is the
    heap and the constructed object. *)
Definition constructor (h : heap) (matches : list Match) (linearWcs : ptr) (order : Z)
    (bbox : Box2I) (ngrid : Z) : result (heap * CreateWcsWithSip) :=
  r ← initialise h matches linearWcs order bbox ngrid;
  let '(h, this) := r in
  checkArguments this order;;
  let this := defaultGrid this in
  let this := guessBBox this in
  r ← _calculateForwardMatrices h this;
  let '(h, this) := r in
  crval ← _getCrvalAsGeomPoint h this;
  lw ← deref h (_linearWcs this);
  let crpix := getPixelOrigin lw in
  let CD := getCDMatrix lw in
  let this := set_newWcs this (makeTanWcs crval crpix CD this) in
  this ← _calculateReverseMatrices this;
  Ok (h, set_newWcs this (makeTanWcs crval crpix CD this)).

End Fit.

Arguments Match D Coord : clear implicits.
Arguments CreateWcsWithSip D Coord : clear implicits.
Arguments ForwardSolution D : clear implicits.
Abbreviation heap D := (list (Wcs D)).
Abbreviation ptr := nat.

(** ** An executable instance

    Exact rational arithmetic as the interpretation of [double], with
    stand-ins for the collaborators; it runs the model on concrete inputs.
    On the small integers and dyadic fractions of the examples below IEEE
    arithmetic is exact too and gives the same values. *)

Module Exact.

(** The square root, exact when numerator and denominator are squares (as
    they are wherever the examples take one) and rounded down on the
    numerator otherwise. *)
Definition Qsqrt (x : Q) : Q :=
  Qred (Qmake (Z.sqrt (Qnum x * Zpos (Qden x))) (Qden x)).

(** Truncation toward zero. *)
Definition Qtrunc (x : Q) : Z := Z.quot (Qnum x) (Zpos (Qden x)).

#[global] Instance Q_ops : DoubleOps Q := {|
  of_int := inject_Z;
  dadd := λ a b, Qred (a + b)%Q;
  dsub := λ a b, Qred (a - b)%Q;
  dmul := λ a b, Qred (a * b)%Q;
  ddiv := λ a b, Qred (a / b)%Q;
  dneg := λ a, Qred (- a)%Q;
  dlt := λ a b, negb (Qle_bool b a);
  dabs := λ a, Qred (Qabs a);
  dpow := λ a n, Qred (a ^ n)%Q;
  dsqrt := Qsqrt;
  to_float := λ a, a;
  to_int := Qtrunc;
|}.

(** Stand-ins: a sky position is given by its intermediate world
    coordinates, pixels are not distorted, and the solver returns a vector
    of the length Eigen's does ([A.cols()]), filled from [b]. *)
#[global] Instance Q_collaborators : Collaborators Q (Q * Q) := {|
  jacobiSvdSolve := λ A b, take (mat_cols A) (b ++ replicate (mat_cols A) 0%Q);
  skyToIntermediateWorldCoord := λ _ c, c;
  getSkyOriginFk5 := wcs_crval;
  undistortPixel := λ _ pt, pt;
|}.

(** Sample inputs: a linear transform with unit CD matrix and pixel origin
    (1, 1), and matches on an [n] x [n] grid of integer pixels whose
    catalogue positions coincide with the observed ones. *)
Definition unitWcs : Wcs Q :=
  mkWcs (0%Q, 0%Q) (1%Q, 1%Q) (mkMatrix2d 1%Q 0%Q 0%Q 1%Q).

Definition matchAt (x y : Z) : Match Q (Q * Q) :=
  mkMatch (inject_Z x, inject_Z y) (inject_Z x) (inject_Z y).

Definition gridMatches (n : Z) : list (Match Q (Q * Q)) :=
  i ← seqZ 0 n; j ← seqZ 0 n; [matchAt i j].

(** Four matches at the corners of the square [0,2] x [0,2]. *)
Definition cornerMatches : list (Match Q (Q * Q)) :=
  [matchAt 0 0; matchAt 2 0; matchAt 0 2; matchAt 2 2].

End Exact.

(** ** Residual statistics (lines 351-375) *)

(** The argument of the statistics helpers is a [Wcs const&], which both the
    linear and the composite transform are. *)
Inductive AnyWcs (D : Type) : Type :=
  | LinearWcs (w : Wcs D)
  | SipWcs (w : TanWcs D).
Arguments LinearWcs {D} w.
Arguments SipWcs {D} w.

(** The helpers of [makeMatchStatistics.h], which are not in this file:
    [makeMatchStatisticsInPixels(wcs, matches, MEDIAN).getValue()], its
    counterpart in radians, and the product [value * afw::geom::radians]
    that makes an [afwGeom::Angle]. *)
Class Statistics (D Coord Angle : Type) : Type := {
  makeMatchStatisticsInPixels : AnyWcs D → list (Match D Coord) → D;
  makeMatchStatisticsInRadians : AnyWcs D → list (Match D Coord) → D;
  radians : D → Angle;
}.

Section Scatter.
Context {D Coord Angle : Type} `{DoubleOps D} `{Statistics D Coord Angle}.

(** [assert(_newWcs.get())] followed by the use of [*_newWcs] *)
Definition newWcs_checked (this : CreateWcsWithSip D Coord) : result (TanWcs D) :=
  match _newWcs this with
  | Some w => Ok w
  | None => Abort
  end.

Definition getScatterInPixels (this : CreateWcsWithSip D Coord) : result D :=
  w ← newWcs_checked this;
  Ok (makeMatchStatisticsInPixels (SipWcs w) (_matches this)).

Definition getLinearScatterInPixels (h : heap D) (this : CreateWcsWithSip D Coord)
  : result D :=
  lw ← deref h (_linearWcs this);
  Ok (makeMatchStatisticsInPixels (LinearWcs lw) (_matches this)).

Definition getScatterOnSky (this : CreateWcsWithSip D Coord) : result Angle :=
  w ← newWcs_checked this;
  Ok (radians (makeMatchStatisticsInRadians (SipWcs w) (_matches this))).

Definition getLinearScatterOnSky (h : heap D) (this : CreateWcsWithSip D Coord)
  : result Angle :=
  lw ← deref h (_linearWcs this);
  Ok (radians (makeMatchStatisticsInRadians (LinearWcs lw) (_matches this))).

End Scatter.

Module ExactStatistics.

(** Stand-ins for the statistics helpers: the number of matches, and the
    value itself as the angle. *)
#[global] Instance Q_statistics : Statistics Q (Q * Q) Q := {|
  makeMatchStatisticsInPixels := λ _ ms, inject_Z (Z.of_nat (length ms));
  makeMatchStatisticsInRadians := λ _ ms, inject_Z (Z.of_nat (length ms));
  radians := λ a, a;
|}.

End ExactStatistics.

(** * Properties *)

(** ** Term indexer *)

Section TermIndexerFacts.

Lemma consecutive_even (n : Z) : 2 * (n * (n + 1) / 2) = n * (n + 1).
Proof.
  assert (H : (n * (n + 1)) `mod` 2 = 0).
  { rewrite Z.mul_mod by lia.
    destruct (Z.mod_pos_bound n 2 ltac:(lia)) as [? ?].
    assert (Hn : n `mod` 2 = 0 ∨ n `mod` 2 = 1) by lia.
    destruct Hn as [Hn|Hn].
    - rewrite Hn. reflexivity.
    - rewrite Z.add_mod by lia. rewrite Hn. reflexivity. }
  pose proof (Z.div_mod (n * (n + 1)) 2 ltac:(lia)). lia.
Qed.

Lemma consecutive_even' (n : Z) : 2 * (n * (n - 1) / 2) = n * (n - 1).
Proof.
  pose proof (consecutive_even (n - 1)) as H.
  replace (n - 1 + 1) with n in H by lia.
  replace (n * (n - 1)) with ((n - 1) * n) by lia. exact H.
Qed.

Lemma nTerms_double (order : Z) : 2 * nTerms order = order * (order + 1).
Proof. apply consecutive_even. Qed.


Lemma pqToIndex_double (p q order : Z) :
  2 * pqToIndex p q order = 2 * q + p * (2 * order - p + 1).
Proof.
  unfold pqToIndex. pose proof (consecutive_even' p). lia.
Qed.

Lemma wrap_id (z : Z) : int_min ≤ z ≤ int_max → wrap z = z.
Proof.
  unfold wrap, int_min, int_max. intros Hz.
  rewrite Z.mod_small by lia. lia.
Qed.

(** On [int]s the loop never leaves the range of [int]: the 32-bit loop
    and the loop on [Z] agree. *)
Lemma indexToPQ_loop_no_overflow (fuel : nat) (p q d : Z) :
  int_min ≤ q ≤ int_max → int_min ≤ d ≤ int_max →
  0 ≤ p → p + Z.max d 0 ≤ int_max →
  indexToPQ_loop32 fuel p q d = indexToPQ_loop fuel p q d.
Proof.
  revert p q d. induction fuel as [|fuel IH]; intros p q d Hq Hd Hp Hpd;
    [reflexivity|].
  simpl. repeat case_bool_decide; simpl; try reflexivity.
  unfold int_min, int_max in *.
  rewrite !wrap_id by (unfold int_min, int_max; lia).
  apply IH; unfold int_min, int_max; lia.
Qed.

Lemma indexToPQ_no_overflow (index order : Z) :
  int_min ≤ index ≤ int_max → int_min ≤ order ≤ int_max →
  indexToPQ32 index order = indexToPQ index order.
Proof.
  intros Hi Ho. apply indexToPQ_loop_no_overflow; try assumption; [lia|].
  unfold int_max in *. lia.
Qed.

(** With enough fuel the result does not depend on the fuel. *)
Lemma indexToPQ_loop_fuel (f1 f2 : nat) (p q d : Z) :
  (Z.to_nat d ≤ f1)%nat → (Z.to_nat d ≤ f2)%nat →
  indexToPQ_loop f1 p q d = indexToPQ_loop f2 p q d.
Proof.
  revert f2 p q d. induction f1 as [|f1 IH]; intros [|f2] p q d H1 H2; simpl;
    repeat case_bool_decide; simpl; try reflexivity; try lia.
  apply IH; lia.
Qed.

(** The recursion equation of the source loop: with enough fuel one
    iteration of the model is one iteration of the [for] loop. *)
Lemma indexToPQ_loop_unfold (fuel : nat) (p q d : Z) :
  (Z.to_nat d ≤ fuel)%nat →
  indexToPQ_loop fuel p q d =
    if bool_decide (q >= d) && bool_decide (d > 0)
    then indexToPQ_loop (Z.to_nat (d - 1)) (p + 1) (q - d) (d - 1)
    else (p, q).
Proof.
  intros Hf. destruct fuel as [|fuel]; simpl;
    repeat case_bool_decide; simpl; try reflexivity; try lia.
  apply indexToPQ_loop_fuel; lia.
Qed.

(** The loop invariant, in closed form: after [k] iterations the remaining
    value [q'] and the start value [q] differ by the sizes of the [k] rows
    that were skipped. *)
Lemma indexToPQ_loop_spec (fuel : nat) (p q d : Z) :
  (Z.to_nat d ≤ fuel)%nat → 0 ≤ d → 0 ≤ q →
  ∃ k q', indexToPQ_loop fuel p q d = (p + k, q') ∧
    0 ≤ k ≤ d ∧ 0 ≤ q' ∧
    2 * q = 2 * q' + k * (2 * d - k + 1) ∧
    (q' < d - k ∨ k = d).
Proof.
  assert (Hstop : ∀ p q d : Z, 0 ≤ d → 0 ≤ q → q < d ∨ d = 0 →
    ∃ k q', (p, q) = (p + k, q') ∧ 0 ≤ k ≤ d ∧ 0 ≤ q' ∧
      2 * q = 2 * q' + k * (2 * d - k + 1) ∧ (q' < d - k ∨ k = d)).
  { intros p0 q0 d0 Hd Hq Hend. exists 0, q0.
    split; [f_equal; lia|]. repeat split; lia. }
  intros Hf Hd Hq. revert p q d Hf Hd Hq.
  induction fuel as [|fuel IH]; intros p q d Hf Hd Hq.
  - simpl. repeat case_bool_decide; simpl; apply Hstop; lia.
  - simpl. repeat case_bool_decide; simpl; try (apply Hstop; lia).
    destruct (IH (p + 1) (q - d) (d - 1)) as (k & q' & E & Hk & Hq' & Hsum & Hend);
      [lia..|].
    exists (k + 1), q'. rewrite E. split; [f_equal; lia|].
    repeat split; lia.
Qed.

Lemma indexToPQ_spec (index order : Z) :
  0 ≤ order → 0 ≤ index →
  ∃ p q, indexToPQ index order = (p, q) ∧
    0 ≤ p ≤ order ∧ 0 ≤ q ∧
    2 * index = 2 * q + p * (2 * order - p + 1) ∧
    (q < order - p ∨ p = order).
Proof.
  intros Ho Hi. unfold indexToPQ.
  destruct (indexToPQ_loop_spec (Z.to_nat order) 0 index order)
    as (k & q' & E & ? & ? & ? & ?); [lia..|].
  exists k, q'. rewrite E. simpl. repeat split; try lia; assumption.
Qed.

(** In range, the pair lies in the triangle. *)
Lemma indexToPQ_in_triangle (index order p q : Z) :
  0 ≤ order → 0 ≤ index < nTerms order →
  indexToPQ index order = (p, q) →
  0 ≤ p ∧ 0 ≤ q ∧ p + q < order ∧ pqToIndex p q order = index.
Proof.
  intros Ho [Hi0 Hi] E.
  destruct (indexToPQ_spec index order Ho Hi0) as (p' & q' & E' & Hp & Hq & Hsum & Hend).
  rewrite E in E'. injection E' as <- <-.
  pose proof (nTerms_double order). pose proof (pqToIndex_double p q order).
  destruct Hend as [Hend|Hend]; [lia|].
  subst p. exfalso. nia.
Qed.

Lemma indexToPQ_injective (order i j : Z) :
  0 ≤ order → 0 ≤ i → 0 ≤ j →
  indexToPQ i order = indexToPQ j order → i = j.
Proof.
  intros Ho Hi Hj E.
  destruct (indexToPQ_spec i order Ho Hi) as (p & q & E1 & _ & _ & S1 & _).
  destruct (indexToPQ_spec j order Ho Hj) as (p' & q' & E2 & _ & _ & S2 & _).
  rewrite E1, E2 in E. injection E as <- <-. lia.
Qed.

Lemma pqToIndex_range (p q order : Z) :
  0 ≤ p → 0 ≤ q → p + q < order → 0 ≤ pqToIndex p q order < nTerms order.
Proof.
  intros Hp Hq Hpq.
  pose proof (nTerms_double order). pose proof (pqToIndex_double p q order).
  assert (0 ≤ p * (2 * order - p + 1)) by (apply Z.mul_nonneg_nonneg; lia).
  assert (0 ≤ (order - p) * (order - p - 1)) by (apply Z.mul_nonneg_nonneg; lia).
  split; lia.
Qed.

Lemma indexToPQ_pqToIndex (p q order : Z) :
  0 ≤ p → 0 ≤ q → p + q < order →
  indexToPQ (pqToIndex p q order) order = (p, q).
Proof.
  intros Hp Hq Hpq.
  destruct (pqToIndex_range p q order Hp Hq Hpq) as [H0 H1].
  destruct (indexToPQ (pqToIndex p q order) order) as [p' q'] eqn:E.
  assert (Ho : 0 ≤ order) by lia.
  destruct (indexToPQ_in_triangle _ _ _ _ Ho (conj H0 H1) E)
    as (Hp' & Hq' & Hpq' & Hidx).
  pose proof (pqToIndex_double p q order) as D1.
  pose proof (pqToIndex_double p' q' order) as D2.
  rewrite Hidx in D2.
  assert (p = p') as <-.
  { destruct (Z.lt_trichotomy p p') as [Hlt|[->|Hgt]]; [exfalso|reflexivity|exfalso].
    - assert (0 ≤ (p' - (p + 1)) * (2 * order - p' - p)) by nia. nia.
    - assert (0 ≤ (p - (p' + 1)) * (2 * order - p' - p)) by nia. nia. }
  f_equal. lia.
Qed.

End TermIndexerFacts.

(** The three terms the forward fit relies on (the assertions of lines
    234-236), for every order from 2 on. *)
Lemma indexToPQ_fixed_points (order : Z) :
  2 ≤ order →
  indexToPQ 0 order = (0, 0) ∧ indexToPQ 1 order = (0, 1) ∧
  indexToPQ order order = (1, 0).
Proof.
  intros Ho. split; [|split].
  - apply (indexToPQ_pqToIndex 0 0 order); lia.
  - apply (indexToPQ_pqToIndex 0 1 order); lia.
  - assert (E : pqToIndex 1 0 order = order).
    { unfold pqToIndex. change (1 * (1 - 1) / 2) with 0. lia. }
    rewrite <- E at 1. apply indexToPQ_pqToIndex; lia.
Qed.

(** C1: for every order in [2,9] and every index below order*(order+1)/2,
    [indexToPQ] returns a pair (p,q) with p >= 0, q >= 0 and p+q < order;
    the mapping is injective on that range and onto the pairs of the
    triangle; and index 0 gives (0,0), index 1 gives (0,1), index [order]
    gives (1,0). *)
Theorem indexToPQ_bijection (order : Z) :
  2 ≤ order ≤ 9 →
  (∀ index, 0 ≤ index < nTerms order →
     0 ≤ (indexToPQ index order).1 ∧ 0 ≤ (indexToPQ index order).2 ∧
     (indexToPQ index order).1 + (indexToPQ index order).2 < order) ∧
  (∀ i j, 0 ≤ i < nTerms order → 0 ≤ j < nTerms order →
     indexToPQ i order = indexToPQ j order → i = j) ∧
  (∀ p q, 0 ≤ p → 0 ≤ q → p + q < order →
     ∃ index, 0 ≤ index < nTerms order ∧ indexToPQ index order = (p, q)) ∧
  indexToPQ 0 order = (0, 0) ∧
  indexToPQ 1 order = (0, 1) ∧
  indexToPQ order order = (1, 0).
Proof.
  intros Ho. assert (Ho' : 0 ≤ order) by lia.
  split; [|split; [|split; [|split; [|split]]]].
  - intros index Hi. destruct (indexToPQ index order) as [p q] eqn:E.
    destruct (indexToPQ_in_triangle _ _ _ _ Ho' Hi E) as (? & ? & ? & _).
    simpl. auto.
  - intros i j Hi Hj. apply indexToPQ_injective; lia.
  - intros p q Hp Hq Hpq. exists (pqToIndex p q order).
    split; [apply pqToIndex_range|apply indexToPQ_pqToIndex]; assumption.
  - apply indexToPQ_fixed_points; lia.
  - apply indexToPQ_fixed_points; lia.
  - apply indexToPQ_fixed_points; lia.
Qed.

Lemma indexToPQ_bijection_witness :
  2 ≤ 3 ≤ 9 ∧
  (∀ index, 0 ≤ index < nTerms 3 →
     0 ≤ (indexToPQ index 3).1 ∧ 0 ≤ (indexToPQ index 3).2 ∧
     (indexToPQ index 3).1 + (indexToPQ index 3).2 < 3) ∧
  (∀ i j, 0 ≤ i < nTerms 3 → 0 ≤ j < nTerms 3 →
     indexToPQ i 3 = indexToPQ j 3 → i = j) ∧
  (∀ p q, 0 ≤ p → 0 ≤ q → p + q < 3 →
     ∃ index, 0 ≤ index < nTerms 3 ∧ indexToPQ index 3 = (p, q)) ∧
  indexToPQ 0 3 = (0, 0) ∧
  indexToPQ 1 3 = (0, 1) ∧
  indexToPQ 3 3 = (1, 0).
Proof.
  split; [lia|]. apply (indexToPQ_bijection 3). lia.
Defined.

(** ** Outcomes and loops *)

Section ResultFacts.
Context {A B : Type}.

Lemma bind_Ok (m : result A) (f : A → result B) (b : B) :
  m ≫= f = Ok b ↔ ∃ a, m = Ok a ∧ f a = Ok b.
Proof.
  split.
  - destruct m as [a| |]; simpl; intros E; try discriminate. eauto.
  - intros (a & -> & E). exact E.
Qed.

Lemma bind_Throw (m : result A) (f : A → result B) (e : exn) :
  m ≫= f = Throw e ↔ m = Throw e ∨ ∃ a, m = Ok a ∧ f a = Throw e.
Proof.
  split.
  - destruct m as [a| |]; simpl; intros E; try discriminate.
    + right. eauto.
    + left. congruence.
  - intros [->|(a & -> & E)]; [reflexivity|exact E].
Qed.

End ResultFacts.

Lemma assert_Ok (c : bool) : assert c = Ok () ↔ c = true.
Proof. destruct c; simpl; split; intros; congruence. Qed.

Lemma assert_not_Throw (c : bool) (e : exn) : assert c ≠ Throw e.
Proof. destruct c; discriminate. Qed.

Section LoopFacts.
Context {S : Type}.
Implicit Types (body : Z → S → result S) (s : S).

Lemma for_each_app body (l1 l2 : list Z) s :
  for_each body (l1 ++ l2) s = for_each body l1 s ≫= for_each body l2.
Proof.
  revert s. induction l1 as [|i l1 IH]; intros s; simpl; [reflexivity|].
  destruct (body i s); simpl; auto.
Qed.

Lemma for_range_done lo hi body s : hi ≤ lo → for_range lo hi body s = Ok s.
Proof.
  intros Hle. unfold for_range.
  replace (seqZ lo (hi - lo)) with (@nil Z); [reflexivity|].
  symmetry. apply seqZ_nil. lia.
Qed.

(** Running the loop to [mid] and then on to [hi]. *)
Lemma for_range_split lo mid hi body s :
  lo ≤ mid ≤ hi →
  for_range lo hi body s = for_range lo mid body s ≫= for_range mid hi body.
Proof.
  intros Hm. unfold for_range.
  replace (hi - lo) with ((mid - lo) + (hi - mid)) by lia.
  rewrite seqZ_app by lia. rewrite for_each_app.
  replace (lo + (mid - lo)) with mid by lia. reflexivity.
Qed.

Lemma for_range_one k body s : for_range k (k + 1) body s = body k s.
Proof.
  unfold for_range. replace (k + 1 - k) with 1 by lia.
  change (seqZ k 1) with [Z.of_nat 0 + k]. change (Z.of_nat 0 + k) with k.
  simpl. destruct (body k s); reflexivity.
Qed.

Lemma for_range_last lo hi body s :
  lo ≤ hi →
  for_range lo (hi + 1) body s = for_range lo hi body s ≫= body hi.
Proof.
  intros Hle. rewrite (for_range_split lo hi (hi + 1)) by lia.
  destruct (for_range lo hi body s); simpl; auto using for_range_one.
Qed.

(** The invariant rule of the [for] loop. *)
Lemma for_range_inv (I : Z → S → Prop) lo hi body s :
  lo ≤ hi → I lo s →
  (∀ k t, lo ≤ k < hi → I k t → ∃ t', body k t = Ok t' ∧ I (k + 1) t') →
  ∃ s', for_range lo hi body s = Ok s' ∧ I hi s'.
Proof.
  intros Hle H0 Hstep.
  assert (G : ∀ n : nat, lo + Z.of_nat n ≤ hi →
    ∃ s', for_range lo (lo + Z.of_nat n) body s = Ok s' ∧ I (lo + Z.of_nat n) s').
  { induction n as [|n IH]; intros Hn.
    - replace (lo + Z.of_nat 0) with lo by lia. exists s.
      split; [apply for_range_done; lia|assumption].
    - destruct IH as (s1 & E1 & I1); [lia|].
      destruct (Hstep (lo + Z.of_nat n) s1) as (s2 & E2 & I2); [lia|assumption|].
      exists s2. replace (lo + Z.of_nat (Datatypes.S n)) with (lo + Z.of_nat n + 1) by lia.
      rewrite for_range_last by lia. rewrite E1. simpl. auto. }
  destruct (G (Z.to_nat (hi - lo))) as (s' & E & HI); [lia|].
  replace (lo + Z.of_nat (Z.to_nat (hi - lo))) with hi in * by lia. eauto.
Qed.

(** A loop whose body raises no exception raises none. *)
Lemma for_each_not_Throw body (idxs : list Z) s (e : exn) :
  (∀ i t, body i t ≠ Throw e) → for_each body idxs s ≠ Throw e.
Proof.
  intros Hb. revert s. induction idxs as [|i idxs IH]; intros s; simpl; [discriminate|].
  intros E. apply bind_Throw in E as [E|(t & _ & E)]; [exact (Hb _ _ E)|exact (IH _ E)].
Qed.

End LoopFacts.

(** ** Vectors and matrices *)

Section EigenFacts.
Context {D : Type} `{DoubleOps D}.
Implicit Types (v : VectorXd D) (M : MatrixXd D) (x : D).

Lemma vec_get_Ok v (i : Z) x :
  vec_get v i = Ok x ↔ 0 ≤ i ∧ v !! Z.to_nat i = Some x.
Proof.
  unfold vec_get. case_bool_decide.
  - destruct (v !! Z.to_nat i) eqn:E; split; intros; try congruence;
      try (split; [assumption|congruence]); destruct_and?; congruence.
  - split; [discriminate|]. intros [? _]. lia.
Qed.

Lemma vec_get_in_range v (i : Z) :
  0 ≤ i < Z.of_nat (length v) → ∃ x, vec_get v i = Ok x.
Proof.
  intros Hi. destruct (lookup_lt_is_Some_2 v (Z.to_nat i)) as [x E]; [lia|].
  exists x. apply vec_get_Ok. split; [lia|assumption].
Qed.

Lemma vec_get_not_Throw v (i : Z) (e : exn) : vec_get v i ≠ Throw e.
Proof.
  unfold vec_get. case_bool_decide; [|discriminate].
  destruct (v !! Z.to_nat i); discriminate.
Qed.

Lemma mat_get_Ok M (i j : Z) x :
  mat_get M i j = Ok x ↔
  0 ≤ i ∧ 0 ≤ j ∧ ∃ row, mat_rows M !! Z.to_nat i = Some row ∧ row !! Z.to_nat j = Some x.
Proof.
  unfold mat_get. repeat case_bool_decide; simpl.
  - destruct (mat_rows M !! Z.to_nat i) as [row|] eqn:Er.
    + destruct (row !! Z.to_nat j) as [y|] eqn:Ey; split.
      * intros [= ->]. eauto 6.
      * intros (_ & _ & row' & [= <-] & E). congruence.
      * discriminate.
      * intros (_ & _ & row' & [= <-] & E). congruence.
    + split; [discriminate|]. intros (_ & _ & row' & E & _). discriminate.
  - split; [discriminate|]. intros (_ & ? & _). lia.
  - split; [discriminate|]. intros (? & _). lia.
  - split; [discriminate|]. intros (? & _). lia.
Qed.

Lemma mat_set_not_Throw M (i j : Z) x (e : exn) : mat_set M i j x ≠ Throw e.
Proof.
  unfold mat_set. destruct (_ && _); [|discriminate].
  destruct (mat_rows M !! Z.to_nat i); [|discriminate].
  case_bool_decide; discriminate.
Qed.

(** A write inside the matrix succeeds. *)
Lemma mat_set_in_range M (r c i j : Z) x :
  mat_wf M r c → 0 ≤ i < r → 0 ≤ j < c → ∃ M', mat_set M i j x = Ok M'.
Proof.
  intros (Hr & Hc & Hrows) Hi Hj. unfold mat_set, rows in *.
  repeat case_bool_decide; try lia. simpl.
  destruct (lookup_lt_is_Some_2 (mat_rows M) (Z.to_nat i)) as [row E]; [lia|].
  rewrite E. rewrite Forall_lookup in Hrows. specialize (Hrows _ _ E).
  case_bool_decide; [eauto|lia].
Qed.

(** After a write the entry written holds the value, every other entry is
    as before, and the shape is kept. *)
Lemma mat_set_spec M M' (i j : Z) x :
  mat_set M i j x = Ok M' →
  mat_get M' i j = Ok x ∧
  (∀ i' j', (i', j') ≠ (i, j) → mat_get M' i' j' = mat_get M i' j') ∧
  (∀ r c, mat_wf M r c → mat_wf M' r c ∧ 0 ≤ i < r ∧ 0 ≤ j < c).
Proof.
  unfold mat_set. repeat case_bool_decide; simpl; try discriminate.
  destruct (mat_rows M !! Z.to_nat i) as [row|] eqn:Er; [|discriminate].
  case_bool_decide as Hj; [|discriminate]. intros [= <-].
  pose proof (lookup_lt_Some _ _ _ Er) as Hi.
  split; [|split].
  - apply mat_get_Ok. split; [assumption|]. split; [assumption|].
    exists (<[Z.to_nat j := x]> row). simpl.
    rewrite list_lookup_insert_eq by assumption.
    rewrite list_lookup_insert_eq by assumption. auto.
  - intros i' j' Hne. unfold mat_get. simpl.
    destruct (bool_decide (0 ≤ i') && bool_decide (0 ≤ j')) eqn:Eb; [|reflexivity].
    apply andb_prop in Eb as [Hi' Hj']. apply bool_decide_eq_true in Hi', Hj'.
    destruct (decide (Z.to_nat i = Z.to_nat i')) as [Ei|Ei].
    + rewrite <- Ei. rewrite list_lookup_insert_eq by assumption. rewrite Er.
      rewrite list_lookup_insert_ne; [reflexivity|].
      intros Ej. apply Hne. f_equal; lia.
    + rewrite list_lookup_insert_ne by assumption. reflexivity.
  - intros r c (Hr & Hc & Hrows). unfold mat_wf, rows, cols in *. simpl.
    rewrite length_insert.
    pose proof Hrows as Hrows'. rewrite Forall_lookup in Hrows'.
    specialize (Hrows' _ _ Er). simpl in Hrows'.
    split; [|lia].
    split; [assumption|]. split; [assumption|].
    apply Forall_insert; [assumption|]. rewrite length_insert. assumption.
Qed.

Lemma Zero_wf (r c : Z) : 0 ≤ r → 0 ≤ c → mat_wf (Zero r c) r c.
Proof.
  intros Hr Hc. unfold mat_wf, Zero, rows, cols. simpl.
  rewrite length_replicate. split; [lia|]. split; [lia|].
  apply Forall_replicate. rewrite length_replicate. lia.
Qed.

Lemma mat_get_Zero (r c i j : Z) :
  0 ≤ i < r → 0 ≤ j < c → mat_get (Zero r c) i j = Ok (of_int 0).
Proof.
  intros Hi Hj. apply mat_get_Ok. split; [lia|]. split; [lia|].
  exists (replicate (Z.to_nat c) (of_int 0)). unfold Zero. simpl.
  split; apply lookup_replicate_2; lia.
Qed.

End EigenFacts.

(** ** Design matrix builder *)

Section DesignMatrix.
Context {D : Type} `{DoubleOps D}.
Implicit Types (x y : VectorXd D) (C : MatrixXd D).

Lemma nTerms_nonneg (order : Z) : 0 ≤ order → 0 ≤ nTerms order.
Proof. intros Ho. pose proof (nTerms_double order). nia. Qed.

(** The builder reads the first [length x] entries of [y] only: it returns
    a matrix as soon as [y] is at least as long as [x]. *)
Lemma calculateCMatrix_spec x y (order : Z) :
  0 ≤ order → (length x ≤ length y)%nat →
  ∃ C, calculateCMatrix x y order = Ok C ∧
    mat_wf C (Z.of_nat (length x)) (nTerms order) ∧
    rows_filled x y order (Z.of_nat (length x)) C.
Proof.
  intros Ho Hlen. pose proof (nTerms_nonneg order Ho) as HT.
  unfold calculateCMatrix.
  set (n := Z.of_nat (length x)). set (T := nTerms order).
  apply (for_range_inv (λ k C, mat_wf C n T ∧ rows_filled x y order k C)); [lia| |].
  { split; [apply Zero_wf; lia|]. intros i xi yi j Hi. lia. }
  intros k C Hk [Hwf Hrows].
  destruct (lookup_lt_is_Some_2 x (Z.to_nat k)) as [xk Exk]; [lia|].
  destruct (lookup_lt_is_Some_2 y (Z.to_nat k)) as [yk Eyk]; [lia|].
  destruct (for_range_inv (λ m C', mat_wf C' n T ∧ rows_filled x y order k C' ∧
      ∀ j, 0 ≤ j < m → mat_get C' k j = Ok (monomial order xk yk j))
      0 T (λ j C',
        let pq := indexToPQ j order in
        let p := pq.1 in
        let q := pq.2 in
        assert (bool_decide (p + q < order));;
        a1 ← vec_get x k; a2 ← vec_get y k;
        mat_set C' k j (dpow a1 p * dpow a2 q)%D) C)
    as (C' & E & Hwf' & Hrows' & Hrow); [lia| |..].
  { split; [assumption|]. split; [assumption|]. intros j Hj. lia. }
  { intros j C1 Hj (Hwf1 & Hrows1 & Hrow1). simpl.
    destruct (indexToPQ j order) as [p q] eqn:Epq.
    destruct (indexToPQ_in_triangle _ _ _ _ Ho Hj Epq) as (Hp & Hq & Hpq & _).
    simpl. rewrite bool_decide_eq_true_2 by assumption. simpl.
    assert (Ex : vec_get x k = Ok xk) by (apply vec_get_Ok; split; [lia|assumption]).
    assert (Ey : vec_get y k = Ok yk) by (apply vec_get_Ok; split; [lia|assumption]).
    rewrite Ex, Ey. simpl.
    destruct (mat_set_in_range C1 n T k j (dpow xk p * dpow yk q)%D) as [C2 E2];
      [assumption|lia|lia|].
    exists C2. split; [assumption|].
    destruct (mat_set_spec _ _ _ _ _ E2) as (Hget & Hother & Hshape).
    split; [apply Hshape; assumption|]. split.
    - intros i xi yi j' Hi Exi Eyi Hj'. rewrite Hother; [eauto|].
      intros [= Ei _]. lia.
    - intros j' Hj'. destruct (decide (j' = j)) as [->|Hne].
      + rewrite Hget. unfold monomial. rewrite Epq. reflexivity.
      + rewrite Hother; [apply Hrow1; lia|]. intros [= Ej]. lia. }
  exists C'. split; [exact E|]. split; [assumption|].
  intros i xi yi j Hi Exi Eyi Hj.
  destruct (decide (Z.of_nat i = k)) as [Ek|Hne].
  - subst k. rewrite Nat2Z.id in Exk, Eyk.
    pose proof (eq_trans (eq_sym Exi) Exk) as Ex.
    pose proof (eq_trans (eq_sym Eyi) Eyk) as Ey.
    injection Ex as ->. injection Ey as ->.
    apply Hrow. assumption.
  - apply Hrows'; [lia|assumption..].
Qed.

(** The builder raises no exception. *)
Lemma calculateCMatrix_not_Throw x y (order : Z) (e : exn) :
  calculateCMatrix x y order ≠ Throw e.
Proof.
  unfold calculateCMatrix, for_range.
  apply for_each_not_Throw. intros i C.
  apply for_each_not_Throw. intros j C' E. simpl in E.
  apply bind_Throw in E as [E|(_ & _ & E)]; [exact (assert_not_Throw _ _ E)|].
  apply bind_Throw in E as [E|(a1 & _ & E)]; [exact (vec_get_not_Throw _ _ _ E)|].
  apply bind_Throw in E as [E|(a2 & _ & E)]; [exact (vec_get_not_Throw _ _ _ E)|].
  exact (mat_set_not_Throw _ _ _ _ _ E).
Qed.

End DesignMatrix.

(** ** The fit raises no exception of its own *)

Section NoThrow.
Context {D Coord : Type} `{DoubleOps D} `{Collaborators D Coord}.
Implicit Types (h : heap D) (this : CreateWcsWithSip D Coord) (e : exn).

Lemma deref_not_Throw h (l : ptr) e : deref h l ≠ Throw e.
Proof. unfold deref. destruct (h !! l); discriminate. Qed.

Lemma maxCoeff_not_Throw (v : VectorXd D) e : maxCoeff v ≠ Throw e.
Proof. destruct v; discriminate. Qed.

Lemma leastSquaresSolve_not_Throw (b : VectorXd D) (A : MatrixXd D) e :
  leastSquaresSolve b A ≠ Throw e.
Proof.
  unfold leastSquaresSolve. intros E.
  apply bind_Throw in E as [E|(_ & _ & E)]; [exact (assert_not_Throw _ _ E)|discriminate].
Qed.

(** Splits a hypothesis [m ≫= f = Throw e] until a leaf that cannot throw
    is reached. *)
Ltac no_throw :=
  repeat match goal with
  | E : Ok _ = Throw _ |- _ => discriminate E
  | E : assert _ = Throw _ |- _ => exact (False_ind _ (assert_not_Throw _ _ E))
  | E : vec_get _ _ = Throw _ |- _ => exact (False_ind _ (vec_get_not_Throw _ _ _ E))
  | E : mat_set _ _ _ _ = Throw _ |- _ => exact (False_ind _ (mat_set_not_Throw _ _ _ _ _ E))
  | E : deref _ _ = Throw _ |- _ => exact (False_ind _ (deref_not_Throw _ _ _ E))
  | E : maxCoeff _ = Throw _ |- _ => exact (False_ind _ (maxCoeff_not_Throw _ _ E))
  | E : calculateCMatrix _ _ _ = Throw _ |- _ =>
      exact (False_ind _ (calculateCMatrix_not_Throw _ _ _ _ E))
  | E : leastSquaresSolve _ _ = Throw _ |- _ =>
      exact (False_ind _ (leastSquaresSolve_not_Throw _ _ _ E))
  | E : _ ≫= _ = Throw _ |- _ => apply bind_Throw in E as [E|(? & _ & E)]
  end.

Lemma forwardSolve_not_Throw h this e : forwardSolve h this ≠ Throw e.
Proof. unfold forwardSolve. intros E. no_throw. Qed.

Lemma refineLinearWcs_not_Throw h this (sol : ForwardSolution D) e :
  refineLinearWcs h this sol ≠ Throw e.
Proof.
  unfold refineLinearWcs, refinedCD, shiftedCrpix, _getCrvalAsGeomPoint.
  intros E. no_throw.
Qed.

Lemma forwardSipTerm_not_Throw (ord : Z) (CDinv : Matrix2d D) (norm : D)
    (mu nu : VectorXd D) (i : Z) (AB : MatrixXd D * MatrixXd D) e :
  forwardSipTerm ord CDinv norm mu nu i AB ≠ Throw e.
Proof.
  unfold forwardSipTerm. intros E.
  destruct (_ && _); [|discriminate]. no_throw.
Qed.

Lemma _calculateForwardMatrices_not_Throw h this e :
  _calculateForwardMatrices h this ≠ Throw e.
Proof.
  unfold _calculateForwardMatrices. intros E.
  apply bind_Throw in E as [E|(sol & _ & E)]; [exact (forwardSolve_not_Throw _ _ _ E)|].
  apply bind_Throw in E as [E|([[h' this'] CDinv] & _ & E)];
    [exact (refineLinearWcs_not_Throw _ _ _ _ E)|].
  apply bind_Throw in E as [E|(AB & _ & E)]; [|discriminate].
  revert E. apply for_each_not_Throw. intros i AB.
  apply forwardSipTerm_not_Throw.
Qed.

Lemma reverseSolve_not_Throw this e : reverseSolve this ≠ Throw e.
Proof.
  unfold reverseSolve. intros E.
  apply bind_Throw in E as [E|(w & _ & E)].
  - destruct (_newWcs this); discriminate.
  - no_throw.
Qed.

Lemma reverseSipTerm_not_Throw (ord : Z) (norm : D) (tmpA tmpB : VectorXd D)
    (j : Z) (AB : MatrixXd D * MatrixXd D) e :
  reverseSipTerm ord norm tmpA tmpB j AB ≠ Throw e.
Proof. unfold reverseSipTerm. intros E. no_throw. Qed.

Lemma _calculateReverseMatrices_not_Throw this e :
  _calculateReverseMatrices this ≠ Throw e.
Proof.
  unfold _calculateReverseMatrices. intros E.
  apply bind_Throw in E as [E|([[norm tmpA] tmpB] & _ & E)];
    [exact (reverseSolve_not_Throw _ _ E)|].
  apply bind_Throw in E as [E|(_ & _ & E)]; [exact (assert_not_Throw _ _ E)|].
  apply bind_Throw in E as [E|(AB & _ & E)]; [|discriminate].
  revert E. apply for_each_not_Throw. intros i AB.
  apply reverseSipTerm_not_Throw.
Qed.

End NoThrow.

(** ** Constructor: the checks of its arguments *)

Section ConstructorChecks.
Context {D Coord : Type} `{DoubleOps D} `{Collaborators D Coord}.
Implicit Types (h : heap D) (this : CreateWcsWithSip D Coord) (e : exn).
Implicit Types (matches : list (Match D Coord)) (bbox : Box2I).

Lemma initialise_Ok h matches (linearWcs : ptr) (order : Z) bbox (ngrid : Z) lw :
  h !! linearWcs = Some lw → -1 ≤ order →
  initialise h matches linearWcs order bbox ngrid =
    Ok (h ++ [lw], initialMembers matches (length h) order bbox ngrid).
Proof.
  intros E Ho. unfold initialise, deref. rewrite E. simpl.
  rewrite !bool_decide_eq_true_2 by lia. reflexivity.
Qed.

(** With a size below zero the member initialisers stop at Eigen's
    assertion, before the body of the constructor. *)
Lemma initialise_negative_size h matches (linearWcs : ptr) (order : Z) bbox
    (ngrid : Z) lw :
  h !! linearWcs = Some lw → order < -1 →
  initialise h matches linearWcs order bbox ngrid = Abort.
Proof.
  intros E Ho. unfold initialise, deref. rewrite E. simpl.
  rewrite (bool_decide_eq_false_2 (0 ≤ order + 1)) by lia. reflexivity.
Qed.

Lemma constructor_negative_size h matches (linearWcs : ptr) (order : Z) bbox
    (ngrid : Z) lw :
  h !! linearWcs = Some lw → order < -1 →
  constructor h matches linearWcs order bbox ngrid = Abort.
Proof.
  intros E Ho. unfold constructor.
  rewrite (initialise_negative_size _ _ _ _ _ _ _ E Ho). reflexivity.
Qed.


(** The constructor after its member initialisers: the checks, then the
    rest of the body. *)
Lemma constructor_unfold h matches (linearWcs : ptr) (order : Z) bbox (ngrid : Z) lw :
  h !! linearWcs = Some lw → -1 ≤ order →
  ∃ this rest,
    initialise h matches linearWcs order bbox ngrid = Ok (h ++ [lw], this) ∧
    _matches this = matches ∧ _sipOrder this = order + 1 ∧
    _reverseSipOrder this = order + 2 ∧ _ngrid this = ngrid ∧ _bbox this = bbox ∧
    constructor h matches linearWcs order bbox ngrid = checkArguments this order ≫= rest ∧
    ∀ u e, rest u ≠ Throw e.
Proof.
  intros E Ho. exists (initialMembers matches (length h) order bbox ngrid). eexists.
  split; [apply initialise_Ok; assumption|].
  repeat (split; [reflexivity|]).
  split.
  - unfold constructor. rewrite (initialise_Ok _ _ _ _ _ _ _ E Ho). simpl. reflexivity.
  - intros [] e Ee. simpl in Ee.
    apply bind_Throw in Ee as [Ee|([h1 this1] & _ & Ee)];
      [exact (_calculateForwardMatrices_not_Throw _ _ _ Ee)|].
    apply bind_Throw in Ee as [Ee|(crval & _ & Ee)].
    { unfold _getCrvalAsGeomPoint in Ee.
      apply bind_Throw in Ee as [Ee|(? & _ & Ee)]; [|discriminate].
      exact (deref_not_Throw _ _ _ Ee). }
    apply bind_Throw in Ee as [Ee|(lw1 & _ & Ee)]; [exact (deref_not_Throw _ _ _ Ee)|].
    apply bind_Throw in Ee as [Ee|(this2 & _ & Ee)]; [|discriminate].
    exact (_calculateReverseMatrices_not_Throw _ _ Ee).
Qed.

Lemma checkArguments_cases this (order : Z) :
  _sipOrder this = order + 1 → _reverseSipOrder this = order + 2 →
  checkArguments this order =
    if bool_decide (order < 2) then
      Throw (OutOfRangeError "SIP must be at least 2nd order")
    else if bool_decide (order + 1 > 9) then
      Throw (OutOfRangeError
        ("SIP forward order " +:+ pretty (order + 1) +:+
         " exceeds the convention limit of 9"))
    else if bool_decide (order + 2 > 9) then
      Throw (OutOfRangeError
        ("SIP reverse order " +:+ pretty (order + 2) +:+
         " exceeds the convention limit of 9"))
    else if bool_decide (Z.of_nat (length (_matches this)) < order + 1) then
      Throw (LengthError "Number of matches less than requested sip order")
    else Ok ().
Proof. intros E1 E2. unfold checkArguments. rewrite E1, E2. reflexivity. Qed.

End ConstructorChecks.

Import Exact.

Section ConstructorErrors.
Context {D Coord : Type} `{DoubleOps D} `{Collaborators D Coord}.
Implicit Types (h : heap D) (matches : list (Match D Coord)) (bbox : Box2I).


(** C3 (amended): a length error is raised only if the number of matches
    is below order + 1, and it is the outcome of the argument checks, which
    come before the fit; when the order passes its own checks
    (2 <= order <= 7) the length error is raised if and only if the number
    of matches is below order + 1, so exactly order + 1 matches do not
    raise it. *)
Theorem constructor_insufficient_matches h matches (linearWcs : ptr) (order : Z)
    bbox (ngrid : Z) lw :
  h !! linearWcs = Some lw →
  (∀ msg, constructor h matches linearWcs order bbox ngrid = Throw (LengthError msg) →
     Z.of_nat (length matches) < order + 1 ∧
     ∃ this, initialise h matches linearWcs order bbox ngrid = Ok (h ++ [lw], this) ∧
       checkArguments this order = Throw (LengthError msg)) ∧
  (2 ≤ order ≤ 7 →
     (constructor h matches linearWcs order bbox ngrid =
        Throw (LengthError "Number of matches less than requested sip order")
      ↔ Z.of_nat (length matches) < order + 1)) ∧
  (2 ≤ order ≤ 7 → Z.of_nat (length matches) = order + 1 →
     ∀ e, constructor h matches linearWcs order bbox ngrid ≠ Throw e).
Proof.
  intros E.
  destruct (decide (-1 ≤ order)) as [Hm|Hm].
  2: { rewrite (constructor_negative_size _ _ _ _ _ _ _ E) by lia.
       split; [intros msg X; discriminate|]. split; intros; exfalso; lia. }
  destruct (constructor_unfold h matches linearWcs order bbox ngrid lw E Hm)
    as (this & rest & Ei & Em & E1 & E2 & _ & _ & -> & Hrest).
  pose proof (checkArguments_cases this order E1 E2) as Ec. rewrite Em in Ec.
  split; [|split].
  - intros msg Et. apply bind_Throw in Et as [Et|(u & _ & Et)];
      [|exfalso; exact (Hrest _ _ Et)].
    split; [|eauto]. rewrite Ec in Et.
    repeat case_bool_decide; try discriminate. assumption.
  - intros Ho. rewrite Ec.
    rewrite (bool_decide_eq_false_2 (order < 2)) by lia.
    rewrite (bool_decide_eq_false_2 (order + 1 > 9)) by lia.
    rewrite (bool_decide_eq_false_2 (order + 2 > 9)) by lia.
    clear Ec. destruct (decide (Z.of_nat (length matches) < order + 1)) as [Hn|Hn].
    + rewrite bool_decide_eq_true_2 by assumption.
      split; [intros _; assumption|reflexivity].
    + rewrite bool_decide_eq_false_2 by assumption.
      split; [intros X; exfalso; exact (Hrest _ _ X)|intros X; lia].
  - intros Ho Hn e. rewrite Ec.
    rewrite (bool_decide_eq_false_2 (order < 2)) by lia.
    rewrite (bool_decide_eq_false_2 (order + 1 > 9)) by lia.
    rewrite (bool_decide_eq_false_2 (order + 2 > 9)) by lia.
    rewrite bool_decide_eq_false_2 by lia. simpl. apply Hrest.
Qed.

End ConstructorErrors.



(** C3, as stated, fails at order 1 with no matches: the number of matches
    is below the forward order 2, yet the error raised is the out-of-range
    error of the order, not the length error. *)
Lemma constructor_length_error_counterexample :
  Z.of_nat (length (gridMatches 0)) < 1 + 1 ∧
  constructor [unitWcs] (gridMatches 0) 0%nat 1 emptyBox 0 =
    Throw (OutOfRangeError "SIP must be at least 2nd order") ∧
  ∀ msg, constructor [unitWcs] (gridMatches 0) 0%nat 1 emptyBox 0 ≠
    Throw (LengthError msg).
Proof. split; [reflexivity|]. split; [reflexivity|]. intros msg. discriminate. Qed.

Lemma constructor_insufficient_matches_witness :
  (constructor [unitWcs] cornerMatches 0%nat 4 emptyBox 0 =
     Throw (LengthError "Number of matches less than requested sip order")
   ↔ Z.of_nat (length cornerMatches) < 4 + 1) ∧
  ∀ e, constructor [unitWcs] cornerMatches 0%nat 3 emptyBox 0 ≠ Throw e.
Proof.
  split.
  - apply (constructor_insufficient_matches [unitWcs] cornerMatches 0%nat 4 emptyBox 0
             unitWcs eq_refl). lia.
  - apply (constructor_insufficient_matches [unitWcs] cornerMatches 0%nat 3 emptyBox 0
             unitWcs eq_refl); [lia|reflexivity].
Defined.

(** ** Design matrix builder: main results *)

(** C4: for equal-length sample vectors x, y of length n and an order in
    [2,9], [calculateCMatrix] returns an n-by-T matrix, T = order*(order+1)/2,
    whose entry (i,j) is x_i^p * y_i^q with (p,q) = indexToPQ(j, order); for
    order 2 and the sample (2,3) the row is [1, 3, 2]. *)
Theorem calculateCMatrix_entries :
  (∀ (D : Type) (ops : DoubleOps D) (x y : VectorXd D) (order : Z),
     length x = length y → 2 ≤ order ≤ 9 →
     ∃ C, calculateCMatrix x y order = Ok C ∧
       mat_wf C (Z.of_nat (length x)) (nTerms order) ∧
       ∀ (i : nat) xi yi j p q,
         x !! i = Some xi → y !! i = Some yi → 0 ≤ j < nTerms order →
         indexToPQ j order = (p, q) →
         mat_get C (Z.of_nat i) j = Ok (dpow xi p * dpow yi q)%D) ∧
  calculateCMatrix [2%Q] [3%Q] 2 = Ok (mkMatrix 3 [[1%Q; 3%Q; 2%Q]]).
Proof.
  split; [|reflexivity].
  intros D ops x y order Hlen Ho.
  destruct (calculateCMatrix_spec x y order) as (C & E & Hwf & Hrows); [lia|lia|].
  exists C. split; [assumption|]. split; [assumption|].
  intros i xi yi j p q Exi Eyi Hj Epq.
  rewrite (Hrows i xi yi j); [|apply lookup_lt_Some in Exi; lia|assumption..].
  unfold monomial. rewrite Epq. reflexivity.
Qed.

Lemma calculateCMatrix_entries_witness :
  ∃ C, calculateCMatrix [2%Q; 5%Q] [3%Q; 7%Q] 3 = Ok C ∧
    mat_wf C 2 (nTerms 3) ∧
    ∀ (i : nat) xi yi j p q,
      [2%Q; 5%Q] !! i = Some xi → [3%Q; 7%Q] !! i = Some yi → 0 ≤ j < nTerms 3 →
      indexToPQ j 3 = (p, q) →
      mat_get C (Z.of_nat i) j = Ok (dpow xi p * dpow yi q)%D.
Proof.
  apply (proj1 calculateCMatrix_entries Q Q_ops [2%Q; 5%Q] [3%Q; 7%Q] 3);
    [reflexivity|lia].
Defined.




(** ** The two coefficient loops *)

Section TermBookkeeping.

(** Term [k] is the only term the iteration [k] adds to those written. *)
Lemma pqToIndex_step (ord k pk qk p q : Z) :
  0 ≤ ord → 0 ≤ k < nTerms ord → indexToPQ k ord = (pk, qk) →
  0 ≤ p → 0 ≤ q → p + q < ord →
  (pqToIndex p q ord < k + 1 ↔ pqToIndex p q ord < k ∨ (p, q) = (pk, qk)).
Proof.
  intros Ho Hk Ek Hp Hq Hpq.
  destruct (indexToPQ_in_triangle _ _ _ _ Ho Hk Ek) as (_ & _ & _ & Eidx).
  split.
  - intros Hlt. destruct (decide (pqToIndex p q ord = k)) as [E|Hne]; [right|left; lia].
    rewrite <- Ek, <- E. symmetry. apply indexToPQ_pqToIndex; assumption.
  - intros [Hlt|[= -> ->]]; lia.
Qed.

Lemma pqToIndex_degree (ord p q : Z) :
  0 ≤ p → 0 ≤ q → p + q < ord → 1 < p + q → 1 ≤ pqToIndex p q ord.
Proof.
  intros Hp Hq Hpq Hdeg. pose proof (pqToIndex_double p q ord) as Hd.
  destruct (decide (p = 0)) as [->|Hp0]; [lia|].
  assert (0 ≤ (p - 1) * (2 * ord - p + 1)) by (apply Z.mul_nonneg_nonneg; lia). lia.
Qed.

End TermBookkeeping.

Section CoefficientLoops.
Context {D : Type} `{DoubleOps D}.
Implicit Types (A B : MatrixXd D) (mu nu : VectorXd D) (CDinv : Matrix2d D).

(** The forward loop run up to [k]: it returns, keeps the shape of the two
    matrices, has written the terms of [forward_written] with the
    coefficients [CDinv * (mu[i], nu[i]) / norm^(p+q)], and has left every
    other entry as it was. *)
Lemma forward_loop_spec (ord : Z) CDinv (norm : D) mu nu A B (k : Z) :
  0 ≤ ord → mat_wf A ord ord → mat_wf B ord ord →
  Z.of_nat (length mu) = nTerms ord → Z.of_nat (length nu) = nTerms ord →
  1 ≤ k ≤ Z.max 1 (nTerms ord) →
  ∃ A' B',
    for_range 1 k (forwardSipTerm ord CDinv norm mu nu) (A, B) = Ok (A', B') ∧
    mat_wf A' ord ord ∧ mat_wf B' ord ord ∧
    ∀ p q,
      (forward_written ord k p q →
         ∃ mui nui, vec_get mu (pqToIndex p q ord) = Ok mui ∧
           vec_get nu (pqToIndex p q ord) = Ok nui ∧
           mat_get A' p q = Ok ((mul_vec CDinv (mui, nui)).1 / dpow norm (p + q))%D ∧
           mat_get B' p q = Ok ((mul_vec CDinv (mui, nui)).2 / dpow norm (p + q))%D) ∧
      (¬ forward_written ord k p q →
         mat_get A' p q = mat_get A p q ∧ mat_get B' p q = mat_get B p q).
Proof.
  intros Ho HA HB Hmu Hnu Hk.
  destruct (for_range_inv (λ k AB,
      mat_wf AB.1 ord ord ∧ mat_wf AB.2 ord ord ∧
      ∀ p q,
        (forward_written ord k p q →
           ∃ mui nui, vec_get mu (pqToIndex p q ord) = Ok mui ∧
             vec_get nu (pqToIndex p q ord) = Ok nui ∧
             mat_get AB.1 p q = Ok ((mul_vec CDinv (mui, nui)).1 / dpow norm (p + q))%D ∧
             mat_get AB.2 p q = Ok ((mul_vec CDinv (mui, nui)).2 / dpow norm (p + q))%D) ∧
        (¬ forward_written ord k p q →
           mat_get AB.1 p q = mat_get A p q ∧ mat_get AB.2 p q = mat_get B p q))
    1 k (forwardSipTerm ord CDinv norm mu nu) (A, B))
    as ([A' B'] & E & HA' & HB' & Hent); [lia| | |eauto 10].
  { simpl. split; [assumption|]. split; [assumption|]. intros p q. split; [|auto].
    intros (Hp & Hq & Hdeg & Hlt).
    pose proof (pqToIndex_degree ord p q Hp Hq ltac:(lia) ltac:(lia)). lia. }
  intros i [A1 B1] Hi (HA1 & HB1 & Hent). simpl in HA1, HB1, Hent.
  assert (Hi' : 0 ≤ i < nTerms ord) by lia.
  unfold forwardSipTerm.
  destruct (indexToPQ i ord) as [pi qi] eqn:Ei. simpl.
  destruct (indexToPQ_in_triangle _ _ _ _ Ho Hi' Ei) as (Hpi & Hqi & Hpqi & Eidx).
  assert (Hstep : ∀ p q, forward_written ord (i + 1) p q ↔
            forward_written ord i p q ∨ ((p, q) = (pi, qi) ∧ 1 < pi + qi)).
  { intros p q. unfold forward_written. split.
    - intros (Hp & Hq & Hdeg & Hlt).
      apply (pqToIndex_step ord i pi qi p q Ho Hi' Ei Hp Hq ltac:(lia)) in Hlt
        as [Hlt|Heq]; [left; auto|].
      right. split; [assumption|]. injection Heq as <- <-. lia.
    - intros [(Hp & Hq & Hdeg & Hlt)|[[= -> ->] Hdeg]];
        (split; [lia|]; split; [lia|]; split; [lia|]); lia. }
  destruct (decide (pi + qi > 1)) as [Hdeg|Hdeg].
  - rewrite bool_decide_eq_true_2 by assumption.
    rewrite bool_decide_eq_true_2 by assumption. simpl.
    destruct (vec_get_in_range mu i) as [mui Emu]; [lia|].
    destruct (vec_get_in_range nu i) as [nui Enu]; [lia|].
    rewrite Emu, Enu. simpl.
    destruct (mat_set_in_range A1 ord ord pi qi
                ((m00 CDinv * mui + m01 CDinv * nui) / dpow norm (pi + qi))%D)
      as [A2 EA]; [assumption|lia|lia|].
    destruct (mat_set_in_range B1 ord ord pi qi
                ((m10 CDinv * mui + m11 CDinv * nui) / dpow norm (pi + qi))%D)
      as [B2 EB]; [assumption|lia|lia|].
    unfold mul_vec. simpl. rewrite EA. simpl. rewrite EB. simpl.
    exists (A2, B2). split; [reflexivity|]. simpl.
    destruct (mat_set_spec _ _ _ _ _ EA) as (HgA & HoA & HsA).
    destruct (mat_set_spec _ _ _ _ _ EB) as (HgB & HoB & HsB).
    split; [apply HsA; assumption|]. split; [apply HsB; assumption|].
    intros p q. destruct (decide ((p, q) = (pi, qi))) as [[= -> ->]|Hne].
    + split; [|intros Hn; exfalso; apply Hn, Hstep; right; split; [reflexivity|lia]].
      intros _. exists mui, nui. rewrite Eidx. unfold mul_vec. simpl. auto.
    + rewrite HoA, HoB by assumption. split.
      * intros Hw. apply Hstep in Hw as [Hw|[Heq _]]; [|contradiction].
        apply Hent. assumption.
      * intros Hn. apply Hent. intros Hw. apply Hn, Hstep. left. assumption.
  - rewrite bool_decide_eq_false_2 by assumption. simpl.
    exists (A1, B1). split; [reflexivity|]. simpl.
    split; [assumption|]. split; [assumption|].
    intros p q. split.
    + intros Hw. apply Hstep in Hw as [Hw|[_ Hd]]; [|lia]. apply Hent. assumption.
    + intros Hn. apply Hent. intros Hw. apply Hn, Hstep. left. assumption.
Qed.

(** The reverse loop run up to [k]: it returns, keeps the shape of the two
    matrices, has written every term of index below [k] with the solved
    coefficient divided by [norm^(p+q)], and has left every other entry as
    it was. *)
Lemma reverse_loop_spec (ord : Z) (norm : D) (tmpA tmpB : VectorXd D) A B (k : Z) :
  0 ≤ ord → mat_wf A ord ord → mat_wf B ord ord →
  Z.of_nat (length tmpA) = nTerms ord → Z.of_nat (length tmpB) = nTerms ord →
  0 ≤ k ≤ nTerms ord →
  ∃ A' B',
    for_range 0 k (reverseSipTerm ord norm tmpA tmpB) (A, B) = Ok (A', B') ∧
    mat_wf A' ord ord ∧ mat_wf B' ord ord ∧
    ∀ p q,
      (reverse_written ord k p q →
         ∃ a b, vec_get tmpA (pqToIndex p q ord) = Ok a ∧
           vec_get tmpB (pqToIndex p q ord) = Ok b ∧
           mat_get A' p q = Ok (a / dpow norm (p + q))%D ∧
           mat_get B' p q = Ok (b / dpow norm (p + q))%D) ∧
      (¬ reverse_written ord k p q →
         mat_get A' p q = mat_get A p q ∧ mat_get B' p q = mat_get B p q).
Proof.
  intros Ho HA HB HtA HtB Hk.
  destruct (for_range_inv (λ k AB,
      mat_wf AB.1 ord ord ∧ mat_wf AB.2 ord ord ∧
      ∀ p q,
        (reverse_written ord k p q →
           ∃ a b, vec_get tmpA (pqToIndex p q ord) = Ok a ∧
             vec_get tmpB (pqToIndex p q ord) = Ok b ∧
             mat_get AB.1 p q = Ok (a / dpow norm (p + q))%D ∧
             mat_get AB.2 p q = Ok (b / dpow norm (p + q))%D) ∧
        (¬ reverse_written ord k p q →
           mat_get AB.1 p q = mat_get A p q ∧ mat_get AB.2 p q = mat_get B p q))
    0 k (reverseSipTerm ord norm tmpA tmpB) (A, B))
    as ([A' B'] & E & HA' & HB' & Hent); [lia| | |eauto 10].
  { simpl. split; [assumption|]. split; [assumption|]. intros p q. split; [|auto].
    intros (Hp & Hq & Hdeg & Hlt).
    destruct (pqToIndex_range p q ord Hp Hq Hdeg). lia. }
  intros i [A1 B1] Hi (HA1 & HB1 & Hent). simpl in HA1, HB1, Hent.
  assert (Hi' : 0 ≤ i < nTerms ord) by lia.
  unfold reverseSipTerm.
  destruct (indexToPQ i ord) as [pi qi] eqn:Ei. simpl.
  destruct (indexToPQ_in_triangle _ _ _ _ Ho Hi' Ei) as (Hpi & Hqi & Hpqi & Eidx).
  assert (Hstep : ∀ p q, reverse_written ord (i + 1) p q ↔
            reverse_written ord i p q ∨ (p, q) = (pi, qi)).
  { intros p q. unfold reverse_written. split.
    - intros (Hp & Hq & Hdeg & Hlt).
      apply (pqToIndex_step ord i pi qi p q Ho Hi' Ei Hp Hq Hdeg) in Hlt
        as [Hlt|Heq]; [left; auto|right; assumption].
    - intros [(Hp & Hq & Hdeg & Hlt)|[= -> ->]];
        (split; [lia|]; split; [lia|]; split; [lia|]); lia. }
  destruct (vec_get_in_range tmpA i) as [a Ea]; [lia|].
  destruct (vec_get_in_range tmpB i) as [b Eb]; [lia|].
  destruct (mat_set_in_range A1 ord ord pi qi (a / dpow norm (pi + qi))%D)
    as [A2 EA]; [assumption|lia|lia|].
  destruct (mat_set_in_range B1 ord ord pi qi (b / dpow norm (pi + qi))%D)
    as [B2 EB]; [assumption|lia|lia|].
  rewrite Ea. simpl. rewrite EA. simpl. rewrite Eb. simpl. rewrite EB. simpl.
  exists (A2, B2). split; [reflexivity|]. simpl.
  destruct (mat_set_spec _ _ _ _ _ EA) as (HgA & HoA & HsA).
  destruct (mat_set_spec _ _ _ _ _ EB) as (HgB & HoB & HsB).
  split; [apply HsA; assumption|]. split; [apply HsB; assumption|].
  intros p q. destruct (decide ((p, q) = (pi, qi))) as [[= -> ->]|Hne].
  - split; [|intros Hn; exfalso; apply Hn, Hstep; right; reflexivity].
    intros _. exists a, b. rewrite Eidx. auto.
  - rewrite HoA, HoB by assumption. split.
    + intros Hw. apply Hstep in Hw as [Hw|Heq]; [|contradiction].
      apply Hent. assumption.
    + intros Hn. apply Hent. intros Hw. apply Hn, Hstep. left. assumption.
Qed.

End CoefficientLoops.

(** ** Forward fit *)

Section ForwardFit.
Context {D Coord : Type} `{DoubleOps D} `{Collaborators D Coord}.
Implicit Types (h : heap D) (this : CreateWcsWithSip D Coord) (lw : Wcs D).

(** Eigen's contract for [solve]: the solution has [A.cols()] entries. *)
Hypothesis solve_length :
  ∀ (A : MatrixXd D) (b : VectorXd D), length (jacobiSvdSolve A b) = mat_cols A.

Lemma leastSquaresSolve_Ok (b : VectorXd D) (A : MatrixXd D) :
  rows A = Z.of_nat (length b) →
  leastSquaresSolve b A = Ok (jacobiSvdSolve A b).
Proof.
  intros E. unfold leastSquaresSolve. rewrite bool_decide_eq_true_2 by assumption.
  reflexivity.
Qed.

Lemma maxCoeff_nonempty (v : VectorXd D) : v ≠ [] → ∃ x, maxCoeff v = Ok x.
Proof. destruct v; [contradiction|]. simpl. eauto. Qed.

Lemma nTerms_above (ord : Z) : 2 ≤ ord → ord < nTerms ord.
Proof. intros Ho. pose proof (nTerms_double ord). nia. Qed.

(** The first half of the forward fit returns two coefficient vectors with
    one entry per term. *)
Lemma forwardSolve_returns h this lw :
  h !! _linearWcs this = Some lw → _matches this ≠ [] → 0 ≤ _sipOrder this →
  ∃ sol, forwardSolve h this = Ok sol ∧
    fs_crpix sol = getPixelOrigin lw ∧
    Z.of_nat (length (fs_mu sol)) = nTerms (_sipOrder this) ∧
    Z.of_nat (length (fs_nu sol)) = nTerms (_sipOrder this).
Proof.
  intros E Hne Ho. unfold forwardSolve, deref. rewrite E. simpl.
  match goal with
  | |- context [maxCoeff (cwiseAbs ?u0) ≫= (λ _, maxCoeff (cwiseAbs ?v0) ≫= _)] =>
      set (u := u0); set (v := v0)
  end.
  destruct (maxCoeff_nonempty (cwiseAbs u)) as [uMax Eu].
  { unfold cwiseAbs, u. destruct (_matches this); [contradiction|discriminate]. }
  destruct (maxCoeff_nonempty (cwiseAbs v)) as [vMax Ev].
  { unfold cwiseAbs, v. destruct (_matches this); [contradiction|discriminate]. }
  rewrite Eu, Ev. simpl.
  destruct (calculateCMatrix_spec (vec_div u (std_max uMax vMax))
              (vec_div v (std_max uMax vMax)) (_sipOrder this))
    as (C & EC & (Hr & Hc & _) & _); [assumption| |].
  { unfold vec_div, u, v. rewrite !length_fmap. reflexivity. }
  rewrite EC. simpl.
  assert (Hrows : rows C = Z.of_nat (length (_matches this))).
  { rewrite Hr. unfold vec_div, u. rewrite !length_fmap. reflexivity. }
  rewrite !leastSquaresSolve_Ok by (rewrite !length_fmap; exact Hrows). simpl.
  eexists. split; [reflexivity|]. simpl.
  rewrite !solve_length. unfold cols in Hc. auto.
Qed.

Lemma refinedCD_returns (ord : Z) (norm : D) (mu nu : VectorXd D) :
  2 ≤ ord → Z.of_nat (length mu) = nTerms ord → Z.of_nat (length nu) = nTerms ord →
  ∃ mu_1 mu_ord nu_1 nu_ord,
    vec_get mu 1 = Ok mu_1 ∧ vec_get mu ord = Ok mu_ord ∧
    vec_get nu 1 = Ok nu_1 ∧ vec_get nu ord = Ok nu_ord ∧
    refinedCD ord norm mu nu =
      Ok (mkMatrix2d (mu_ord / norm)%D (mu_1 / norm)%D (nu_ord / norm)%D (nu_1 / norm)%D).
Proof.
  intros Ho Hmu Hnu. pose proof (nTerms_above ord Ho).
  destruct (vec_get_in_range mu 1) as [mu_1 E1]; [lia|].
  destruct (vec_get_in_range mu ord) as [mu_ord E2]; [lia|].
  destruct (vec_get_in_range nu 1) as [nu_1 E3]; [lia|].
  destruct (vec_get_in_range nu ord) as [nu_ord E4]; [lia|].
  exists mu_1, mu_ord, nu_1, nu_ord. unfold refinedCD.
  rewrite E1, E2, E3, E4. simpl. auto 6.
Qed.

Lemma shiftedCrpix_returns (crpix : Point2D D) (CDinv : Matrix2d D) (mu nu : VectorXd D) :
  0 < Z.of_nat (length mu) → 0 < Z.of_nat (length nu) →
  ∃ mu_0 nu_0,
    vec_get mu 0 = Ok mu_0 ∧ vec_get nu 0 = Ok nu_0 ∧
    shiftedCrpix crpix CDinv mu nu =
      Ok ((crpix.1 - (mu_0 * m00 CDinv + nu_0 * m01 CDinv))%D,
          (crpix.2 - (mu_0 * m10 CDinv + nu_0 * m11 CDinv))%D).
Proof.
  intros Hmu Hnu.
  destruct (vec_get_in_range mu 0) as [mu_0 E1]; [lia|].
  destruct (vec_get_in_range nu 0) as [nu_0 E2]; [lia|].
  exists mu_0, nu_0. unfold shiftedCrpix. rewrite E1, E2. simpl. auto.
Qed.

(** The whole forward fit returns: the heap gains one object, the refined
    linear transform, and only [_linearWcs], [_sipA] and [_sipB] change. *)
Lemma forward_fit_returns h this lw :
  h !! _linearWcs this = Some lw → _matches this ≠ [] → 2 ≤ _sipOrder this →
  mat_wf (_sipA this) (_sipOrder this) (_sipOrder this) →
  mat_wf (_sipB this) (_sipOrder this) (_sipOrder this) →
  ∃ sol CD crpix AB,
    forwardSolve h this = Ok sol ∧
    fs_crpix sol = getPixelOrigin lw ∧
    Z.of_nat (length (fs_mu sol)) = nTerms (_sipOrder this) ∧
    Z.of_nat (length (fs_nu sol)) = nTerms (_sipOrder this) ∧
    refinedCD (_sipOrder this) (fs_norm sol) (fs_mu sol) (fs_nu sol) = Ok CD ∧
    shiftedCrpix (getPixelOrigin lw) (inverse CD) (fs_mu sol) (fs_nu sol) = Ok crpix ∧
    forwardSipTerms this sol (inverse CD) (nTerms (_sipOrder this)) = Ok AB ∧
    _calculateForwardMatrices h this =
      Ok (h ++ [mkWcs (getSkyOriginFk5 lw) crpix CD],
          set_sipAB (set_linearWcs this (length h)) AB).
Proof.
  intros E Hne Ho HA HB.
  destruct (forwardSolve_returns h this lw E Hne ltac:(lia)) as (sol & Es & Ec & Hmu & Hnu).
  pose proof (nTerms_above _ Ho) as HT.
  destruct (refinedCD_returns (_sipOrder this) (fs_norm sol) (fs_mu sol) (fs_nu sol)
              Ho Hmu Hnu) as (? & ? & ? & ? & _ & _ & _ & _ & ECD).
  set (CD := mkMatrix2d _ _ _ _) in ECD.
  destruct (shiftedCrpix_returns (getPixelOrigin lw) (inverse CD) (fs_mu sol) (fs_nu sol))
    as (? & ? & _ & _ & Ecr); [lia|lia|].
  set (crpix := (_, _)) in Ecr.
  destruct (forward_loop_spec (_sipOrder this) (inverse CD) (fs_norm sol)
              (fs_mu sol) (fs_nu sol) (_sipA this) (_sipB this) (nTerms (_sipOrder this)))
    as (A' & B' & EAB & _); [lia|assumption..|lia|].
  exists sol, CD, crpix, (A', B').
  repeat (split; [assumption|]).
  unfold _calculateForwardMatrices. rewrite Es. simpl.
  unfold refineLinearWcs.
  destruct (indexToPQ_fixed_points (_sipOrder this) Ho) as (F0 & F1 & F2).
  rewrite !bool_decide_eq_true_2 by assumption. simpl.
  rewrite ECD. simpl. rewrite Ec, Ecr. simpl.
  unfold _getCrvalAsGeomPoint, deref. rewrite E. simpl.
  unfold forwardSipTerms. simpl. rewrite Hmu.
  unfold forwardSipTerms in EAB. rewrite EAB. reflexivity.
Qed.

End ForwardFit.

(** ** Reverse fit *)

Section ReverseFit.
Context {D Coord : Type} `{DoubleOps D} `{Collaborators D Coord}.
Implicit Types (this : CreateWcsWithSip D Coord).

Hypothesis solve_length :
  ∀ (A : MatrixXd D) (b : VectorXd D), length (jacobiSvdSolve A b) = mat_cols A.

Lemma grid_nonempty {X : Type} (ngrid : Z) (f : Z → Z → X) :
  0 < ngrid → (i ← seqZ 0 ngrid; j ← seqZ 0 ngrid; [f i j]) ≠ [].
Proof.
  intros Hn. rewrite (seqZ_cons 0 ngrid) by lia. simpl. discriminate.
Qed.




(** The first half of the reverse fit returns two coefficient vectors with
    one entry per term. *)
Lemma reverseSolve_returns this (w : TanWcs D) :
  _newWcs this = Some w → 0 < _ngrid this → 0 ≤ _reverseSipOrder this →
  ∃ norm tmpA tmpB, reverseSolve this = Ok (norm, tmpA, tmpB) ∧
    Z.of_nat (length tmpA) = nTerms (_reverseSipOrder this) ∧
    Z.of_nat (length tmpB) = nTerms (_reverseSipOrder this).
Proof.
  intros Ew Hn Ho. unfold reverseSolve. rewrite Ew. simpl.
  match goal with
  | |- context [maxCoeff (cwiseAbs (?f <$> ?s0)) ≫= _] => set (samples := s0)
  end.
  assert (Hs : samples ≠ []) by (apply grid_nonempty; assumption).
  match goal with
  | |- context [maxCoeff (cwiseAbs ?u0) ≫= (λ _, maxCoeff (cwiseAbs ?v0) ≫= _)] =>
      set (U := u0); set (V := v0)
  end.
  destruct (maxCoeff_nonempty (cwiseAbs U)) as [UMax EU].
  { unfold cwiseAbs, U. destruct samples; [contradiction|discriminate]. }
  destruct (maxCoeff_nonempty (cwiseAbs V)) as [VMax EV].
  { unfold cwiseAbs, V. destruct samples; [contradiction|discriminate]. }
  rewrite EU, EV. simpl.
  set (norm := if dlt VMax UMax then UMax else VMax).
  destruct (calculateCMatrix_spec (vec_div U norm) (vec_div V norm) (_reverseSipOrder this))
    as (C & EC & (Hr & Hc & _) & _); [assumption| |].
  { unfold vec_div, U, V. rewrite !length_fmap. reflexivity. }
  rewrite EC. simpl.
  assert (Hrows : rows C = Z.of_nat (length samples)).
  { rewrite Hr. unfold vec_div, U. rewrite !length_fmap. reflexivity. }
  rewrite !(leastSquaresSolve_Ok) by (rewrite !length_fmap; exact Hrows). simpl.
  eexists _, _, _. split; [reflexivity|].
  rewrite !solve_length. unfold cols in Hc. auto.
Qed.

(** The whole reverse fit returns, and only [_sipAp] and [_sipBp] change. *)
Lemma reverse_fit_returns this (w : TanWcs D) :
  _newWcs this = Some w → 0 < _ngrid this → 0 ≤ _reverseSipOrder this →
  mat_wf (_sipAp this) (_reverseSipOrder this) (_reverseSipOrder this) →
  mat_wf (_sipBp this) (_reverseSipOrder this) (_reverseSipOrder this) →
  ∃ norm tmpA tmpB AB,
    reverseSolve this = Ok (norm, tmpA, tmpB) ∧
    Z.of_nat (length tmpA) = nTerms (_reverseSipOrder this) ∧
    Z.of_nat (length tmpB) = nTerms (_reverseSipOrder this) ∧
    reverseSipTerms this norm tmpA tmpB (nTerms (_reverseSipOrder this)) = Ok AB ∧
    _calculateReverseMatrices this = Ok (set_sipApBp this AB).
Proof.
  intros Ew Hn Ho HA HB.
  destruct (reverseSolve_returns this w Ew Hn Ho) as (norm & tmpA & tmpB & Es & HtA & HtB).
  destruct (reverse_loop_spec (_reverseSipOrder this) norm tmpA tmpB
              (_sipAp this) (_sipBp this) (nTerms (_reverseSipOrder this)))
    as (A' & B' & EAB & _); [assumption..| |].
  { pose proof (nTerms_nonneg _ Ho). lia. }
  exists norm, tmpA, tmpB, (A', B').
  split; [assumption|]. split; [assumption|]. split; [assumption|].
  split; [exact EAB|].
  unfold _calculateReverseMatrices. rewrite Es. simpl.
  rewrite bool_decide_eq_true_2 by lia. simpl.
  unfold reverseSipTerms in *. rewrite HtA, EAB. reflexivity.
Qed.

End ReverseFit.

(** ** The constructor as a whole *)

Section ConstructorRun.
Context {D Coord : Type} `{DoubleOps D} `{Collaborators D Coord}.
Implicit Types (h : heap D) (this : CreateWcsWithSip D Coord) (lw : Wcs D).
Implicit Types (matches : list (Match D Coord)) (bbox : Box2I).

Hypothesis solve_length :
  ∀ (A : MatrixXd D) (b : VectorXd D), length (jacobiSvdSolve A b) = mat_cols A.

(** The default grid and the guessed box touch [_ngrid] and [_bbox] only. *)
Lemma prologue_fields this :
  let this' := guessBBox (defaultGrid this) in
  _matches this' = _matches this ∧ _linearWcs this' = _linearWcs this ∧
  _sipOrder this' = _sipOrder this ∧ _reverseSipOrder this' = _reverseSipOrder this ∧
  _sipA this' = _sipA this ∧ _sipB this' = _sipB this ∧
  _sipAp this' = _sipAp this ∧ _sipBp this' = _sipBp this ∧
  _newWcs this' = _newWcs this ∧
  _ngrid this' = (if bool_decide (_ngrid this ≤ 0) then 5 * _sipOrder this else _ngrid this).
Proof.
  unfold guessBBox, defaultGrid.
  destruct (bool_decide (_ngrid this ≤ 0)); simpl;
    destruct (_ && _); simpl; auto 12.
Qed.

Lemma deref_two_more h lw (w : Wcs D) :
  deref (h ++ [lw; w]) (S (length h)) = Ok w ∧ deref (h ++ [lw; w]) (length h) = Ok lw.
Proof.
  unfold deref. split.
  - rewrite lookup_app_r by lia. replace (S (length h) - length h)%nat with 1%nat by lia.
    reflexivity.
  - rewrite lookup_app_r by lia. rewrite Nat.sub_diag. reflexivity.
Qed.

(** With a valid reference, an order in [2,7] and at least order + 1
    matches the constructor returns; the intermediate results of its run
    are named. *)
Lemma constructor_returns h matches (linearWcs : ptr) (order : Z) bbox (ngrid : Z) lw :
  h !! linearWcs = Some lw → 2 ≤ order ≤ 7 →
  order + 1 ≤ Z.of_nat (length matches) →
  let this0 :=
    guessBBox (defaultGrid (initialMembers matches (length h) order bbox ngrid)) in
  ∃ sol CD crpix AB norm tmpA tmpB ABp,
    let refined := mkWcs (getSkyOriginFk5 lw) crpix CD in
    let this1 := set_sipAB (set_linearWcs this0 (S (length h))) AB in
    let this2 :=
      set_newWcs this1 (makeTanWcs (getSkyOriginFk5 refined) crpix CD this1) in
    let this3 := set_sipApBp this2 ABp in
    forwardSolve (h ++ [lw]) this0 = Ok sol ∧
    fs_crpix sol = getPixelOrigin lw ∧
    Z.of_nat (length (fs_mu sol)) = nTerms (order + 1) ∧
    Z.of_nat (length (fs_nu sol)) = nTerms (order + 1) ∧
    refinedCD (order + 1) (fs_norm sol) (fs_mu sol) (fs_nu sol) = Ok CD ∧
    shiftedCrpix (getPixelOrigin lw) (inverse CD) (fs_mu sol) (fs_nu sol) = Ok crpix ∧
    forwardSipTerms this0 sol (inverse CD) (nTerms (order + 1)) = Ok AB ∧
    reverseSolve this2 = Ok (norm, tmpA, tmpB) ∧
    Z.of_nat (length tmpA) = nTerms (order + 2) ∧
    Z.of_nat (length tmpB) = nTerms (order + 2) ∧
    reverseSipTerms this2 norm tmpA tmpB (nTerms (order + 2)) = Ok ABp ∧
    _calculateForwardMatrices (h ++ [lw]) this0 = Ok (h ++ [lw; refined], this1) ∧
    _calculateReverseMatrices this2 = Ok this3 ∧
    constructor h matches linearWcs order bbox ngrid =
      Ok (h ++ [lw; refined],
          set_newWcs this3 (makeTanWcs (getSkyOriginFk5 refined) crpix CD this3)).
Proof.
  intros E Ho Hn this0.
  destruct (prologue_fields (initialMembers matches (length h) order bbox ngrid))
    as (Fm & Fl & Fo & Fr & FA & FB & FAp & FBp & Fw & Fg).
  fold this0 in Fm, Fl, Fo, Fr, FA, FB, FAp, FBp, Fw, Fg. simpl in *.
  assert (Hlen : length (h ++ [lw]) = S (length h))
    by (rewrite length_app; simpl; lia).
  destruct (forward_fit_returns solve_length (h ++ [lw]) this0 lw)
    as (sol & CD & crpix & AB & Es & Ec & Hmu & Hnu & ECD & Ecr & EAB & Ef).
  { rewrite Fl. apply list_lookup_middle. reflexivity. }
  { rewrite Fm. intros ->. simpl in Hn. lia. }
  { rewrite Fo. lia. }
  { rewrite FA, Fo. apply Zero_wf; lia. }
  { rewrite FB, Fo. apply Zero_wf; lia. }
  rewrite Fo in Hmu, Hnu, ECD, EAB.
  rewrite Hlen, <- app_assoc in Ef. simpl in Ef.
  set (refined := mkWcs (getSkyOriginFk5 lw) crpix CD) in *.
  set (this1 := set_sipAB (set_linearWcs this0 (S (length h))) AB) in *.
  set (this2 := set_newWcs this1 (makeTanWcs (getSkyOriginFk5 refined) crpix CD this1)).
  destruct (reverse_fit_returns solve_length this2
              (makeTanWcs (getSkyOriginFk5 refined) crpix CD this1))
    as (norm & tmpA & tmpB & ABp & Er & HtA & HtB & EABp & Erev).
  { reflexivity. }
  { simpl. rewrite Fg. case_bool_decide; lia. }
  { simpl. rewrite Fr. lia. }
  { simpl. rewrite FAp, Fr. apply Zero_wf; lia. }
  { simpl. rewrite FBp, Fr. apply Zero_wf; lia. }
  assert (Er2 : _reverseSipOrder this2 = order + 2) by (simpl; exact Fr).
  rewrite Er2 in HtA, HtB, EABp.
  exists sol, CD, crpix, AB, norm, tmpA, tmpB, ABp. simpl.
  repeat (split; [assumption|]).
  assert (Hsize : -1 ≤ order) by lia.
  unfold constructor. rewrite (initialise_Ok _ _ _ _ _ _ _ E Hsize). simpl.
  rewrite (checkArguments_cases (initialMembers matches (length h) order bbox ngrid)
             order eq_refl eq_refl). simpl.
  rewrite (bool_decide_eq_false_2 (order < 2)) by lia.
  rewrite (bool_decide_eq_false_2 (order + 1 > 9)) by lia.
  rewrite (bool_decide_eq_false_2 (order + 2 > 9)) by lia.
  rewrite bool_decide_eq_false_2 by lia. simpl.
  fold this0. rewrite Ef. simpl.
  destruct (deref_two_more h lw refined) as [L1 _].
  unfold _getCrvalAsGeomPoint. simpl. rewrite L1. simpl.
  fold this2. rewrite Erev. reflexivity.
Qed.

End ConstructorRun.

(** The stand-in solver of the executable instance keeps Eigen's contract. *)
Lemma Q_solve_length (A : MatrixXd Q) (b : VectorXd Q) :
  length (jacobiSvdSolve A b) = mat_cols A.
Proof.
  simpl. rewrite length_take, length_app, length_replicate. lia.
Qed.

(** In exact arithmetic the closed form of [inverse] is the inverse. *)
Lemma inverse_exact (M : Matrix2d Q) :
  ¬ (determinant M == 0)%Q →
  (m00 M * m00 (inverse M) + m01 M * m10 (inverse M) == 1)%Q ∧
  (m00 M * m01 (inverse M) + m01 M * m11 (inverse M) == 0)%Q ∧
  (m10 M * m00 (inverse M) + m11 M * m10 (inverse M) == 0)%Q ∧
  (m10 M * m01 (inverse M) + m11 M * m11 (inverse M) == 1)%Q.
Proof.
  destruct M as [a b c d]. unfold determinant, inverse. simpl.
  rewrite !Qred_correct. intros Hdet.
  repeat split; field; exact Hdet.
Qed.

(** ** What a returned call has done *)

Section Inversion.
Context {D Coord : Type} `{DoubleOps D} `{Collaborators D Coord}.
Implicit Types (h : heap D) (this : CreateWcsWithSip D Coord) (lw : Wcs D).
Implicit Types (matches : list (Match D Coord)) (bbox : Box2I).




End Inversion.

(** ** Grid resolution *)



(** ** The guessed validity region *)

Section BoundingBox.
Implicit Types (b B : Box2I) (pt : Z * Z) (pts : list (Z * Z)).

Lemma include_first b pt : isEmpty b = true → include b pt = mkBox2I pt (1, 1).
Proof. intros E. unfold include. rewrite E. reflexivity. Qed.

Lemma include_next b pt :
  0 < getWidth b → 0 < getHeight b →
  let b' := include b pt in
  0 < getWidth b' ∧ 0 < getHeight b' ∧
  getMinX b' = Z.min (getMinX b) pt.1 ∧ getMaxX b' = Z.max (getMaxX b) pt.1 ∧
  getMinY b' = Z.min (getMinY b) pt.2 ∧ getMaxY b' = Z.max (getMaxY b) pt.2.
Proof.
  intros Hw Hh. unfold include, isEmpty.
  rewrite (bool_decide_eq_false_2 ((box_dim b).1 = 0)) by (unfold getWidth in Hw; lia).
  simpl. unfold getMaxX, getMaxY, getMinX, getMinY, getWidth, getHeight in *. simpl.
  lia.
Qed.

(** Folding [include] over points, from a box that has pixels. *)
Lemma foldl_include_spec pts b :
  0 < getWidth b → 0 < getHeight b →
  let B := foldl include b pts in
  0 < getWidth B ∧ 0 < getHeight B ∧
  (getMinX B ≤ getMinX b ∧ getMaxX b ≤ getMaxX B ∧
   getMinY B ≤ getMinY b ∧ getMaxY b ≤ getMaxY B) ∧
  (∀ pt, pt ∈ pts →
     getMinX B ≤ pt.1 ≤ getMaxX B ∧ getMinY B ≤ pt.2 ≤ getMaxY B) ∧
  (getMinX B = getMinX b ∨ ∃ pt, pt ∈ pts ∧ pt.1 = getMinX B) ∧
  (getMaxX B = getMaxX b ∨ ∃ pt, pt ∈ pts ∧ pt.1 = getMaxX B) ∧
  (getMinY B = getMinY b ∨ ∃ pt, pt ∈ pts ∧ pt.2 = getMinY B) ∧
  (getMaxY B = getMaxY b ∨ ∃ pt, pt ∈ pts ∧ pt.2 = getMaxY B).
Proof.
  revert b. induction pts as [|p pts IH]; intros b Hw Hh; simpl.
  - split; [assumption|]. split; [assumption|]. split; [lia|].
    split; [intros pt Hpt; inversion Hpt|]. auto.
  - destruct (include_next b p Hw Hh) as (Hw' & Hh' & E1 & E2 & E3 & E4).
    destruct (IH (include b p) Hw' Hh')
      as (HW & HH & (L1 & L2 & L3 & L4) & Hin & C1 & C2 & C3 & C4).
    split; [assumption|]. split; [assumption|]. split; [lia|]. split.
    { intros pt Hpt. apply elem_of_cons in Hpt as [->|Hpt]; [lia|auto]. }
    assert (Hlift : ∀ (P : Z * Z → Prop), (∃ pt, pt ∈ pts ∧ P pt) →
              ∃ pt, pt ∈ p :: pts ∧ P pt).
    { intros P (pt & Hpt & HP). exists pt. split; [right; assumption|assumption]. }
    assert (Hhead : ∀ (P : Z * Z → Prop), P p → ∃ pt, pt ∈ p :: pts ∧ P pt).
    { intros P HP. exists p. split; [left|assumption]. }
    repeat split.
    + destruct C1 as [C1|C1]; [|right; apply Hlift; assumption].
      destruct (Z.min_spec (getMinX b) p.1) as [[_ Em]|[_ Em]];
        [left; lia|right; apply Hhead; lia].
    + destruct C2 as [C2|C2]; [|right; apply Hlift; assumption].
      destruct (Z.max_spec (getMaxX b) p.1) as [[_ Em]|[_ Em]];
        [right; apply Hhead; lia|left; lia].
    + destruct C3 as [C3|C3]; [|right; apply Hlift; assumption].
      destruct (Z.min_spec (getMinY b) p.2) as [[_ Em]|[_ Em]];
        [left; lia|right; apply Hhead; lia].
    + destruct C4 as [C4|C4]; [|right; apply Hlift; assumption].
      destruct (Z.max_spec (getMaxY b) p.2) as [[_ Em]|[_ Em]];
        [right; apply Hhead; lia|left; lia].
Qed.

(** Starting from an empty box, the loop of lines 157-164 leaves the
    bounding box of the points. *)
Lemma foldl_include_bounding pts b :
  isEmpty b = true → pts ≠ [] → is_bounding_box (foldl include b pts) pts.
Proof.
  intros Eb Hne. destruct pts as [|p pts]; [contradiction|]. simpl.
  rewrite (include_first b p Eb).
  destruct (foldl_include_spec pts (mkBox2I p (1, 1)))
    as (HW & HH & (L1 & L2 & L3 & L4) & Hin & C1 & C2 & C3 & C4);
    [unfold getWidth; simpl; lia|unfold getHeight; simpl; lia|].
  unfold getMaxX, getMaxY, getMinX, getMinY, getWidth, getHeight in L1, L2, L3, L4, C1, C2, C3, C4.
  simpl in L1, L2, L3, L4, C1, C2, C3, C4.
  assert (Hlift : ∀ (P : Z * Z → Prop), (∃ pt, pt ∈ pts ∧ P pt) →
            ∃ pt, pt ∈ p :: pts ∧ P pt).
  { intros P (pt & Hpt & HP). exists pt. split; [right; assumption|assumption]. }
  assert (Hhead : ∀ (P : Z * Z → Prop), P p → ∃ pt, pt ∈ p :: pts ∧ P pt).
  { intros P HP. exists p. split; [left|assumption]. }
  split; [assumption|]. split; [assumption|]. split.
  { intros pt Hpt. apply elem_of_cons in Hpt as [->|Hpt]; [|auto].
    unfold getMaxX, getMaxY, getMinX, getMinY, getWidth, getHeight in *. lia. }
  repeat split.
  - destruct C1 as [C1|C1]; [apply Hhead; unfold getMinX; lia|apply Hlift; assumption].
  - destruct C2 as [C2|C2]; [apply Hhead; unfold getMaxX, getMinX, getWidth; lia
                            |apply Hlift; assumption].
  - destruct C3 as [C3|C3]; [apply Hhead; unfold getMinY; lia|apply Hlift; assumption].
  - destruct C4 as [C4|C4]; [apply Hhead; unfold getMaxY, getMinY, getHeight; lia
                            |apply Hlift; assumption].
Qed.

(** Growing a box that has pixels by a non-negative border moves each side
    outwards by the border. *)
Lemma grow_sides B (bx by' : Z) :
  0 < getWidth B → 0 < getHeight B → 0 ≤ bx → 0 ≤ by' →
  let B' := grow B (bx, by') in
  getMinX B' = getMinX B - bx ∧ getMaxX B' = getMaxX B + bx ∧
  getMinY B' = getMinY B - by' ∧ getMaxY B' = getMaxY B + by'.
Proof.
  intros Hw Hh Hx Hy. unfold grow, isEmpty.
  rewrite (bool_decide_eq_false_2 ((box_dim B).1 = 0)) by (unfold getWidth in Hw; lia).
  simpl.
  rewrite (bool_decide_eq_false_2 (getWidth B + 2 * bx ≤ 0)) by lia.
  rewrite (bool_decide_eq_false_2 (getHeight B + 2 * by' ≤ 0)) by lia.
  simpl. unfold getMaxX, getMaxY, getMinX, getMinY, getWidth, getHeight. simpl. lia.
Qed.

End BoundingBox.

(** C9 (amended): when no validity region is supplied (the box is empty),
    the constructor takes the bounding box of the observed positions, each
    converted to an integer pixel, and grows it on each side by the border
    [1/sqrt(number of matches)] times the box's width (respectively height)
    converted to an integer number of pixels. *)
Theorem guessed_bbox_spec {D Coord : Type} `{DoubleOps D} `{Collaborators D Coord}
    (h : heap D) (matches : list (Match D Coord)) (linearWcs : ptr) (order : Z)
    (bbox : Box2I) (ngrid : Z) (lw : Wcs D) :
  (∀ (A : MatrixXd D) (b : VectorXd D), length (jacobiSvdSolve A b) = mat_cols A) →
  h !! linearWcs = Some lw → 2 ≤ order ≤ 7 →
  order + 1 ≤ Z.of_nat (length matches) →
  isEmpty bbox = true →
  ∃ h' this B,
    constructor h matches linearWcs order bbox ngrid = Ok (h', this) ∧
    is_bounding_box B (pixelOf <$> matches) ∧
    let frac := to_float (of_int 1 / dsqrt (of_int (Z.of_nat (length matches))))%D in
    let bx := to_int (to_float (frac * to_float (of_int (getWidth B)))%D) in
    let by' := to_int (to_float (frac * to_float (of_int (getHeight B)))%D) in
    _bbox this = grow B (bx, by') ∧
    (0 ≤ bx → 0 ≤ by' →
     getMinX (_bbox this) = getMinX B - bx ∧ getMaxX (_bbox this) = getMaxX B + bx ∧
     getMinY (_bbox this) = getMinY B - by' ∧ getMaxY (_bbox this) = getMaxY B + by').
Proof.
  intros solve_length E Ho Hn Eb.
  destruct (constructor_returns solve_length h matches linearWcs order bbox ngrid lw
              E Ho Hn)
    as (sol & CD & crpix & AB & norm & tmpA & tmpB & ABp & Hrun).
  simpl in Hrun. destruct Hrun as (_ & _ & _ & _ & _ & _ & _ & _ & _ & _ & _ & _ & _ & Ector).
  assert (Hne : matches ≠ []) by (intros ->; simpl in Hn; lia).
  exists (h ++ [lw; mkWcs (getSkyOriginFk5 lw) crpix CD]).
  eexists. exists (foldl include bbox (pixelOf <$> matches)).
  split; [exact Ector|].
  assert (HB : is_bounding_box (foldl include bbox (pixelOf <$> matches))
                 (pixelOf <$> matches)).
  { apply foldl_include_bounding; [assumption|].
    destruct matches; [contradiction|discriminate]. }
  split; [exact HB|].
  assert (Ebox : _bbox (guessBBox (defaultGrid
                   (initialMembers matches (length h) order bbox ngrid))) =
                 grow (foldl include bbox (pixelOf <$> matches))
                   (borderOf (borderFrac (length matches))
                      (getWidth (foldl include bbox (pixelOf <$> matches))),
                    borderOf (borderFrac (length matches))
                      (getHeight (foldl include bbox (pixelOf <$> matches))))).
  { unfold guessBBox, defaultGrid.
    assert (Ef : ∀ (l : list (Match D Coord)) b0,
              foldl (λ b m, include b (pixelOf m)) b0 l = foldl include b0 (pixelOf <$> l)).
    { induction l as [|m l IH]; intros b0; simpl; [reflexivity|apply IH]. }
    destruct (bool_decide (_ ≤ 0)); simpl; rewrite Eb; simpl;
      rewrite (bool_decide_eq_false_2 (matches = [])) by assumption; simpl;
      rewrite Ef; reflexivity. }
  simpl. split; [exact Ebox|].
  intros Hx Hy. rewrite Ebox.
  destruct HB as (HW & HH & _).
  apply grow_sides; assumption.
Qed.

Lemma guessed_bbox_spec_witness :
  ∃ h' this B,
    constructor [unitWcs] cornerMatches 0%nat 2 emptyBox 0 = Ok (h', this) ∧
    is_bounding_box B (pixelOf <$> cornerMatches) ∧
    let frac := to_float (of_int 1 / dsqrt (of_int (Z.of_nat (length cornerMatches))))%D in
    let bx := to_int (to_float (frac * to_float (of_int (getWidth B)))%D) in
    let by' := to_int (to_float (frac * to_float (of_int (getHeight B)))%D) in
    _bbox this = grow B (bx, by') ∧
    (0 ≤ bx → 0 ≤ by' →
     getMinX (_bbox this) = getMinX B - bx ∧ getMaxX (_bbox this) = getMaxX B + bx ∧
     getMinY (_bbox this) = getMinY B - by' ∧ getMaxY (_bbox this) = getMaxY B + by').
Proof.
  apply (guessed_bbox_spec [unitWcs] cornerMatches 0%nat 2 emptyBox 0 unitWcs
           Q_solve_length eq_refl); [lia|simpl; lia|reflexivity].
Defined.

(** C9, as stated, fails on four matches at the corners of [0,2] x [0,2]:
    the bounding box is 3 pixels wide and 1/sqrt(4) times 3 is 3/2, yet the
    box is grown by 1 pixel on each side. *)
Lemma guessed_bbox_border_counterexample :
  ∃ h' this,
    constructor [unitWcs] cornerMatches 0%nat 2 emptyBox 0 = Ok (h', this) ∧
    foldl include emptyBox (pixelOf <$> cornerMatches) = mkBox2I (0, 0) (3, 3) ∧
    (of_int 1 / dsqrt (of_int (Z.of_nat (length cornerMatches))) * of_int 3)%D
      = Qmake 3 2 ∧
    _bbox this = mkBox2I (-1, -1) (5, 5) ∧
    ¬ (inject_Z (0 - getMinX (_bbox this)) == Qmake 3 2)%Q ∧
    ¬ (inject_Z (getMaxX (_bbox this) - 2) == Qmake 3 2)%Q.
Proof.
  eexists _, _. split; [vm_compute; reflexivity|].
  split; [reflexivity|]. split; [reflexivity|]. split; [reflexivity|].
  split; intros Hq; vm_compute in Hq; discriminate.
Qed.

(** ** The forward and reverse fits: main results *)

(** C6: in the forward fit the refined CD matrix is built from the entries
    1 and [order] of the solved vectors [mu] and [nu], each divided by the
    scale [norm]; the new pixel origin is the old one minus [invMap] applied
    to [(mu[0], nu[0])], where [invMap] is the closed-form inverse of the
    refined matrix; and the refined transform is a new object: the caller's
    transform, like every object that existed before, is unchanged. *)
Theorem forward_fit_refines_linear_transform
    {D Coord : Type} `{DoubleOps D} `{Collaborators D Coord}
    (h : heap D) (matches : list (Match D Coord)) (linearWcs : ptr) (order : Z)
    (bbox : Box2I) (ngrid : Z) (lw : Wcs D) :
  (∀ (A : MatrixXd D) (b : VectorXd D), length (jacobiSvdSolve A b) = mat_cols A) →
  h !! linearWcs = Some lw → 2 ≤ order ≤ 7 →
  order + 1 ≤ Z.of_nat (length matches) →
  let this0 :=
    guessBBox (defaultGrid (initialMembers matches (length h) order bbox ngrid)) in
  ∃ sol h' this1 this' mu_0 mu_1 mu_ord nu_0 nu_1 nu_ord,
    forwardSolve (h ++ [lw]) this0 = Ok sol ∧
    _calculateForwardMatrices (h ++ [lw]) this0 = Ok (h', this1) ∧
    constructor h matches linearWcs order bbox ngrid = Ok (h', this') ∧
    _linearWcs this' = _linearWcs this1 ∧
    _sipOrder this0 = order + 1 ∧
    vec_get (fs_mu sol) 0 = Ok mu_0 ∧ vec_get (fs_mu sol) 1 = Ok mu_1 ∧
    vec_get (fs_mu sol) (order + 1) = Ok mu_ord ∧
    vec_get (fs_nu sol) 0 = Ok nu_0 ∧ vec_get (fs_nu sol) 1 = Ok nu_1 ∧
    vec_get (fs_nu sol) (order + 1) = Ok nu_ord ∧
    let norm := fs_norm sol in
    let CD := mkMatrix2d (mu_ord / norm)%D (mu_1 / norm)%D
                         (nu_ord / norm)%D (nu_1 / norm)%D in
    let invdet := (of_int 1 / (m00 CD * m11 CD - m10 CD * m01 CD))%D in
    let invMap := mkMatrix2d (m11 CD * invdet)%D (- m01 CD * invdet)%D
                             (- m10 CD * invdet)%D (m00 CD * invdet)%D in
    let crpix := getPixelOrigin lw in
    inverse CD = invMap ∧
    h' !! _linearWcs this1 =
      Some (mkWcs (getSkyOriginFk5 lw)
              ((crpix.1 - (mu_0 * m00 invMap + nu_0 * m01 invMap))%D,
               (crpix.2 - (mu_0 * m10 invMap + nu_0 * m11 invMap))%D)
              CD) ∧
    (h ++ [lw]) !! _linearWcs this1 = None ∧
    _linearWcs this1 ≠ linearWcs ∧
    h' !! linearWcs = Some lw ∧
    (∀ l w, (h ++ [lw]) !! l = Some w → h' !! l = Some w).
Proof.
  intros solve_length E Ho Hn this0.
  destruct (constructor_returns solve_length h matches linearWcs order bbox ngrid lw
              E Ho Hn)
    as (sol & CD & crpix & AB & norm & tmpA & tmpB & ABp & Hrun).
  fold this0 in Hrun. cbv zeta in Hrun.
  destruct Hrun as (Es & Ec & Hmu & Hnu & ECD & Ecr & _ & _ & _ & _ & _ & Ef & _ & Ector).
  destruct (refinedCD_returns (order + 1) (fs_norm sol) (fs_mu sol) (fs_nu sol))
    as (mu_1 & mu_ord & nu_1 & nu_ord & G1 & G2 & G3 & G4 & ECD'); [lia|assumption..|].
  rewrite ECD in ECD'. injection ECD' as ->.
  pose proof (nTerms_above (order + 1) ltac:(lia)) as HT.
  destruct (shiftedCrpix_returns (getPixelOrigin lw)
              (inverse (mkMatrix2d (mu_ord / fs_norm sol)%D (mu_1 / fs_norm sol)%D
                                   (nu_ord / fs_norm sol)%D (nu_1 / fs_norm sol)%D))
              (fs_mu sol) (fs_nu sol))
    as (mu_0 & nu_0 & G5 & G6 & Ecr'); [lia|lia|].
  rewrite Ecr in Ecr'. injection Ecr' as ->.
  eexists sol, _, _, _, mu_0, mu_1, mu_ord, nu_0, nu_1, nu_ord.
  split; [exact Es|]. split; [exact Ef|]. split; [exact Ector|].
  split; [reflexivity|].
  split; [apply (prologue_fields (initialMembers matches (length h) order bbox ngrid))|].
  repeat (split; [assumption|]).
  cbv zeta. split; [reflexivity|].
  assert (Hl : _linearWcs this0 = length h)
    by apply (prologue_fields (initialMembers matches (length h) order bbox ngrid)).
  simpl.
  split.
  { rewrite lookup_app_r by lia.
    replace (S (length h) - length h)%nat with 1%nat by lia. reflexivity. }
  split; [apply lookup_ge_None; rewrite length_app; simpl; lia|].
  split; [apply lookup_lt_Some in E; lia|].
  split; [apply lookup_app_l_Some; assumption|].
  intros l w Hl'. change (h ++ [lw; ?x]) with (h ++ [lw] ++ [x]).
  rewrite app_assoc. apply lookup_app_l_Some. assumption.
Qed.

Lemma forward_fit_refines_linear_transform_witness :
  ∃ h' this', constructor [unitWcs] cornerMatches 0%nat 2 emptyBox 0 = Ok (h', this') ∧
    h' !! 0%nat = Some unitWcs ∧ _linearWcs this' ≠ 0%nat.
Proof.
  destruct (forward_fit_refines_linear_transform [unitWcs] cornerMatches 0%nat 2
              emptyBox 0 unitWcs Q_solve_length eq_refl)
    as (sol & h' & this1 & this' & mu_0 & mu_1 & mu_ord & nu_0 & nu_1 & nu_ord & Hrun);
    [lia|simpl; lia|].
  cbv zeta in Hrun.
  destruct Hrun as (_ & _ & Ector & El & _ & _ & _ & _ & _ & _ & _ & _ & _ & _ & Hne & Hl & _).
  exists h', this'. rewrite El. auto.
Defined.

Section OffTriangle.
Context {D : Type} `{DoubleOps D}.
Implicit Types (A B : MatrixXd D).

Lemma Zero_off_triangle (ord : Z) : off_triangle_zero (Zero ord ord) ord.
Proof. intros p q Hp Hq _. apply mat_get_Zero; assumption. Qed.

(** No iteration of the forward loop writes outside the triangle. *)
Lemma forward_loop_off_triangle (ord : Z) (CDinv : Matrix2d D) (norm : D)
    (mu nu : VectorXd D) A B (k : Z) :
  0 ≤ ord → mat_wf A ord ord → mat_wf B ord ord →
  Z.of_nat (length mu) = nTerms ord → Z.of_nat (length nu) = nTerms ord →
  1 ≤ k ≤ Z.max 1 (nTerms ord) →
  off_triangle_zero A ord → off_triangle_zero B ord →
  ∃ A' B',
    for_range 1 k (forwardSipTerm ord CDinv norm mu nu) (A, B) = Ok (A', B') ∧
    off_triangle_zero A' ord ∧ off_triangle_zero B' ord.
Proof.
  intros Ho HA HB Hmu Hnu Hk ZA ZB.
  destruct (forward_loop_spec ord CDinv norm mu nu A B k Ho HA HB Hmu Hnu Hk)
    as (A' & B' & E & _ & _ & Hent).
  exists A', B'. split; [exact E|].
  assert (Hout : ∀ p q, ord ≤ p + q → ¬ forward_written ord k p q).
  { intros p q Hpq (_ & _ & Hdeg & _). lia. }
  split; intros p q Hp Hq Hpq; destruct (Hent p q) as [_ Hun];
    destruct (Hun (Hout p q Hpq)) as [EA EB].
  - rewrite EA. apply ZA; assumption.
  - rewrite EB. apply ZB; assumption.
Qed.

(** No iteration of the reverse loop writes outside the triangle. *)
Lemma reverse_loop_off_triangle (ord : Z) (norm : D) (tmpA tmpB : VectorXd D)
    A B (k : Z) :
  0 ≤ ord → mat_wf A ord ord → mat_wf B ord ord →
  Z.of_nat (length tmpA) = nTerms ord → Z.of_nat (length tmpB) = nTerms ord →
  0 ≤ k ≤ nTerms ord →
  off_triangle_zero A ord → off_triangle_zero B ord →
  ∃ A' B',
    for_range 0 k (reverseSipTerm ord norm tmpA tmpB) (A, B) = Ok (A', B') ∧
    off_triangle_zero A' ord ∧ off_triangle_zero B' ord.
Proof.
  intros Ho HA HB HtA HtB Hk ZA ZB.
  destruct (reverse_loop_spec ord norm tmpA tmpB A B k Ho HA HB HtA HtB Hk)
    as (A' & B' & E & _ & _ & Hent).
  exists A', B'. split; [exact E|].
  assert (Hout : ∀ p q, ord ≤ p + q → ¬ reverse_written ord k p q).
  { intros p q Hpq (_ & _ & Hdeg & _). lia. }
  split; intros p q Hp Hq Hpq; destruct (Hent p q) as [_ Hun];
    destruct (Hun (Hout p q Hpq)) as [EA EB].
  - rewrite EA. apply ZA; assumption.
  - rewrite EB. apply ZB; assumption.
Qed.

End OffTriangle.

(** C8: in each of the four coefficient matrices every entry (p,q) with
    p + q >= the matrix's order is zero at every point of the fit: in the
    object as initialised, after each iteration of the forward loop, after
    each iteration of the reverse loop, and in the constructed object. *)
Theorem off_triangle_entries_stay_zero
    {D Coord : Type} `{DoubleOps D} `{Collaborators D Coord}
    (h : heap D) (matches : list (Match D Coord)) (linearWcs : ptr) (order : Z)
    (bbox : Box2I) (ngrid : Z) (lw : Wcs D) :
  (∀ (A : MatrixXd D) (b : VectorXd D), length (jacobiSvdSolve A b) = mat_cols A) →
  h !! linearWcs = Some lw → 2 ≤ order ≤ 7 →
  order + 1 ≤ Z.of_nat (length matches) →
  let init := initialMembers matches (length h) order bbox ngrid in
  let this0 := guessBBox (defaultGrid init) in
  ∃ sol CD h' this1 w norm tmpA tmpB this',
    forwardSolve (h ++ [lw]) this0 = Ok sol ∧
    refinedCD (order + 1) (fs_norm sol) (fs_mu sol) (fs_nu sol) = Ok CD ∧
    _calculateForwardMatrices (h ++ [lw]) this0 = Ok (h', this1) ∧
    reverseSolve (set_newWcs this1 w) = Ok (norm, tmpA, tmpB) ∧
    constructor h matches linearWcs order bbox ngrid = Ok (h', this') ∧
    (off_triangle_zero (_sipA init) (order + 1) ∧
     off_triangle_zero (_sipB init) (order + 1) ∧
     off_triangle_zero (_sipAp init) (order + 2) ∧
     off_triangle_zero (_sipBp init) (order + 2)) ∧
    (∀ k, 1 ≤ k ≤ nTerms (order + 1) →
       ∃ AB, forwardSipTerms (set_linearWcs this0 (S (length h))) sol (inverse CD) k
               = Ok AB ∧
         off_triangle_zero AB.1 (order + 1) ∧ off_triangle_zero AB.2 (order + 1)) ∧
    (_sipAp this1 = _sipAp init ∧ _sipBp this1 = _sipBp init) ∧
    (∀ k, 0 ≤ k ≤ nTerms (order + 2) →
       ∃ AB, reverseSipTerms (set_newWcs this1 w) norm tmpA tmpB k = Ok AB ∧
         off_triangle_zero AB.1 (order + 2) ∧ off_triangle_zero AB.2 (order + 2)) ∧
    (_sipA this' = _sipA this1 ∧ _sipB this' = _sipB this1) ∧
    (off_triangle_zero (_sipA this') (order + 1) ∧
     off_triangle_zero (_sipB this') (order + 1) ∧
     off_triangle_zero (_sipAp this') (order + 2) ∧
     off_triangle_zero (_sipBp this') (order + 2)).
Proof.
  intros solve_length E Ho Hn init this0.
  destruct (constructor_returns solve_length h matches linearWcs order bbox ngrid lw
              E Ho Hn)
    as (sol & CD & crpix & AB & norm & tmpA & tmpB & ABp & Hrun).
  fold init in Hrun. fold this0 in Hrun. cbv zeta in Hrun.
  destruct Hrun as (Es & _ & Hmu & Hnu & ECD & _ & EAB & Er & HtA & HtB & EABp & Ef & _ & Ector).
  destruct (prologue_fields init)
    as (_ & _ & Fo & Fr & FA & FB & FAp & FBp & _ & _).
  fold this0 in Fo, Fr, FA, FB, FAp, FBp.
  change (_sipOrder init) with (order + 1) in *.
  change (_reverseSipOrder init) with (order + 2) in *.
  change (_sipA init) with (Zero (order + 1) (order + 1)) in *.
  change (_sipB init) with (Zero (order + 1) (order + 1)) in *.
  change (_sipAp init) with (Zero (order + 2) (order + 2)) in *.
  change (_sipBp init) with (Zero (order + 2) (order + 2)) in *.
  pose proof (nTerms_above (order + 1) ltac:(lia)) as HT.
  assert (Hfwd : ∀ k, 1 ≤ k ≤ nTerms (order + 1) →
    ∃ AB', forwardSipTerms (set_linearWcs this0 (S (length h))) sol (inverse CD) k
             = Ok AB' ∧
      off_triangle_zero AB'.1 (order + 1) ∧ off_triangle_zero AB'.2 (order + 1)).
  { intros k Hk. unfold forwardSipTerms. simpl. rewrite Fo, FA, FB.
    destruct (forward_loop_off_triangle (order + 1) (inverse CD) (fs_norm sol)
                (fs_mu sol) (fs_nu sol) (Zero (order + 1) (order + 1))
                (Zero (order + 1) (order + 1)) k)
      as (A' & B' & E' & ZA & ZB);
      [lia|apply Zero_wf; lia|apply Zero_wf; lia|assumption|assumption|lia
      |apply Zero_off_triangle|apply Zero_off_triangle|].
    exists (A', B'). auto. }
  assert (Hrev : ∀ k, 0 ≤ k ≤ nTerms (order + 2) →
    ∃ AB', reverseSipTerms
             (set_newWcs (set_sipAB (set_linearWcs this0 (S (length h))) AB)
                (makeTanWcs
                   (getSkyOriginFk5 (mkWcs (getSkyOriginFk5 lw) crpix CD)) crpix CD
                   (set_sipAB (set_linearWcs this0 (S (length h))) AB)))
             norm tmpA tmpB k = Ok AB' ∧
      off_triangle_zero AB'.1 (order + 2) ∧ off_triangle_zero AB'.2 (order + 2)).
  { intros k Hk. unfold reverseSipTerms. simpl. rewrite Fr, FAp, FBp.
    destruct (reverse_loop_off_triangle (order + 2) norm tmpA tmpB
                (Zero (order + 2) (order + 2)) (Zero (order + 2) (order + 2)) k)
      as (A' & B' & E' & ZA & ZB);
      [lia|apply Zero_wf; lia|apply Zero_wf; lia|assumption|assumption|lia
      |apply Zero_off_triangle|apply Zero_off_triangle|].
    exists (A', B'). auto. }
  eexists sol, CD, _, _, _, norm, tmpA, tmpB, _.
  split; [exact Es|]. split; [exact ECD|]. split; [exact Ef|].
  split; [exact Er|]. split; [exact Ector|].
  split; [repeat split; apply Zero_off_triangle|].
  split; [exact Hfwd|].
  split; [simpl; auto|].
  split; [exact Hrev|].
  split; [simpl; auto|].
  simpl.
  destruct (Hfwd (nTerms (order + 1))) as (AB' & E1 & Z1 & Z2); [lia|].
  destruct (Hrev (nTerms (order + 2))) as (ABp' & E2 & Z3 & Z4).
  { pose proof (nTerms_nonneg (order + 2)). lia. }
  assert (AB' = AB) as ->.
  { unfold forwardSipTerms in E1, EAB. simpl in E1. congruence. }
  assert (ABp' = ABp) as -> by congruence.
  auto.
Qed.

Lemma off_triangle_entries_stay_zero_witness :
  ∃ h' this', constructor [unitWcs] cornerMatches 0%nat 2 emptyBox 0 = Ok (h', this') ∧
    off_triangle_zero (_sipA this') (2 + 1) ∧ off_triangle_zero (_sipB this') (2 + 1) ∧
    off_triangle_zero (_sipAp this') (2 + 2) ∧ off_triangle_zero (_sipBp this') (2 + 2).
Proof.
  destruct (off_triangle_entries_stay_zero [unitWcs] cornerMatches 0%nat 2
              emptyBox 0 unitWcs Q_solve_length eq_refl)
    as (sol & CD & h' & this1 & w & norm & tmpA & tmpB & this' & Hrun);
    [lia|simpl; lia|].
  cbv zeta in Hrun.
  destruct Hrun as (_ & _ & _ & _ & Ector & _ & _ & _ & _ & _ & Hfinal).
  exists h', this'. split; [exact Ector|exact Hfinal].
Defined.

(** C7: the forward fit writes a coefficient into the forward matrices only
    for the terms of total degree above 1 (and below the forward order),
    namely [invMap * (mu[i], nu[i])] divided by [norm^(p+q)], where [invMap]
    is the closed-form inverse of the refined CD matrix, and leaves the
    terms of degree 0 and 1 at zero; the reverse fit, run on the composite
    transform made from the refined linear transform and the forward
    matrices, writes, for every term of the reverse order's index range,
    the solved coefficient divided by [norm^(p+q)]. *)
Theorem sip_coefficients_written
    {D Coord : Type} `{DoubleOps D} `{Collaborators D Coord}
    (h : heap D) (matches : list (Match D Coord)) (linearWcs : ptr) (order : Z)
    (bbox : Box2I) (ngrid : Z) (lw : Wcs D) :
  (∀ (A : MatrixXd D) (b : VectorXd D), length (jacobiSvdSolve A b) = mat_cols A) →
  h !! linearWcs = Some lw → 2 ≤ order ≤ 7 →
  order + 1 ≤ Z.of_nat (length matches) →
  ngrid ≤ 46340 →
  let this0 :=
    guessBBox (defaultGrid (initialMembers matches (length h) order bbox ngrid)) in
  ∃ sol h' this1 refined mu_1 mu_ord nu_1 nu_ord rnorm tmpA tmpB this',
    forwardSolve (h ++ [lw]) this0 = Ok sol ∧
    vec_get (fs_mu sol) 1 = Ok mu_1 ∧ vec_get (fs_mu sol) (order + 1) = Ok mu_ord ∧
    vec_get (fs_nu sol) 1 = Ok nu_1 ∧ vec_get (fs_nu sol) (order + 1) = Ok nu_ord ∧
    _calculateForwardMatrices (h ++ [lw]) this0 = Ok (h', this1) ∧
    h' !! _linearWcs this1 = Some refined ∧
    let norm := fs_norm sol in
    let CD := mkMatrix2d (mu_ord / norm)%D (mu_1 / norm)%D
                         (nu_ord / norm)%D (nu_1 / norm)%D in
    let invdet := (of_int 1 / (m00 CD * m11 CD - m10 CD * m01 CD))%D in
    let invMap := mkMatrix2d (m11 CD * invdet)%D (- m01 CD * invdet)%D
                             (- m10 CD * invdet)%D (m00 CD * invdet)%D in
    let w := mkTanWcs (getSkyOriginFk5 refined) (getPixelOrigin refined)
               (getCDMatrix refined)
               (_sipA this1) (_sipB this1) (_sipAp this1) (_sipBp this1) in
    getCDMatrix refined = CD ∧
    reverseSolve (set_newWcs this1 w) = Ok (rnorm, tmpA, tmpB) ∧
    constructor h matches linearWcs order bbox ngrid = Ok (h', this') ∧
    _sipA this1 = _sipA this' ∧ _sipB this1 = _sipB this' ∧
    _sipAp this1 = Zero (order + 2) (order + 2) ∧
    _sipBp this1 = Zero (order + 2) (order + 2) ∧
    (∀ i p q, 0 ≤ i < nTerms (order + 1) → indexToPQ i (order + 1) = (p, q) →
       (1 < p + q →
          ∃ mui nui, vec_get (fs_mu sol) i = Ok mui ∧ vec_get (fs_nu sol) i = Ok nui ∧
            mat_get (_sipA this') p q =
              Ok ((m00 invMap * mui + m01 invMap * nui) / dpow norm (p + q))%D ∧
            mat_get (_sipB this') p q =
              Ok ((m10 invMap * mui + m11 invMap * nui) / dpow norm (p + q))%D) ∧
       (p + q ≤ 1 →
          mat_get (_sipA this') p q = Ok (of_int 0) ∧
          mat_get (_sipB this') p q = Ok (of_int 0))) ∧
    (∀ j p q, 0 ≤ j < nTerms (order + 2) → indexToPQ j (order + 2) = (p, q) →
       ∃ a b, vec_get tmpA j = Ok a ∧ vec_get tmpB j = Ok b ∧
         mat_get (_sipAp this') p q = Ok (a / dpow rnorm (p + q))%D ∧
         mat_get (_sipBp this') p q = Ok (b / dpow rnorm (p + q))%D).
Proof.
  intros solve_length E Ho Hn _ this0.
  destruct (constructor_returns solve_length h matches linearWcs order bbox ngrid lw
              E Ho Hn)
    as (sol & CD & crpix & AB & norm & tmpA & tmpB & ABp & Hrun).
  fold this0 in Hrun. cbv zeta in Hrun.
  destruct Hrun as (Es & _ & Hmu & Hnu & ECD & _ & EAB & Er & HtA & HtB & EABp & Ef & _ & Ector).
  destruct (refinedCD_returns (order + 1) (fs_norm sol) (fs_mu sol) (fs_nu sol))
    as (mu_1 & mu_ord & nu_1 & nu_ord & G1 & G2 & G3 & G4 & ECD'); [lia|assumption..|].
  rewrite ECD in ECD'. injection ECD' as ->.
  destruct (prologue_fields (initialMembers matches (length h) order bbox ngrid))
    as (_ & _ & Fo & Fr & FA & FB & FAp & FBp & _ & _).
  fold this0 in Fo, Fr, FA, FB, FAp, FBp. simpl in Fo, Fr, FA, FB, FAp, FBp.
  pose proof (nTerms_above (order + 1) ltac:(lia)) as HT.
  pose proof (nTerms_nonneg (order + 2) ltac:(lia)) as HT'.
  set (CD := mkMatrix2d (mu_ord / fs_norm sol)%D (mu_1 / fs_norm sol)%D
                        (nu_ord / fs_norm sol)%D (nu_1 / fs_norm sol)%D) in *.
  destruct (forward_loop_spec (order + 1) (inverse CD) (fs_norm sol) (fs_mu sol)
              (fs_nu sol) (Zero (order + 1) (order + 1)) (Zero (order + 1) (order + 1))
              (nTerms (order + 1)))
    as (A' & B' & E1 & _ & _ & Hfwd);
    [lia|apply Zero_wf; lia|apply Zero_wf; lia|assumption|assumption|lia|].
  destruct (reverse_loop_spec (order + 2) norm tmpA tmpB
              (Zero (order + 2) (order + 2)) (Zero (order + 2) (order + 2))
              (nTerms (order + 2)))
    as (Ap' & Bp' & E2 & _ & _ & Hrev);
    [lia|apply Zero_wf; lia|apply Zero_wf; lia|assumption|assumption|lia|].
  assert (AB = (A', B')) as ->.
  { unfold forwardSipTerms in EAB. rewrite Fo, FA, FB in EAB. congruence. }
  assert (ABp = (Ap', Bp')) as ->.
  { unfold reverseSipTerms in EABp. simpl in EABp. rewrite Fr, FAp, FBp in EABp.
    congruence. }
  eexists sol, _, _, (mkWcs (getSkyOriginFk5 lw) crpix CD),
    mu_1, mu_ord, nu_1, nu_ord, norm, tmpA, tmpB, _.
  split; [exact Es|].
  split; [exact G1|]. split; [exact G2|]. split; [exact G3|]. split; [exact G4|].
  split; [exact Ef|].
  split.
  { simpl. rewrite lookup_app_r by lia.
    replace (S (length h) - length h)%nat with 1%nat by lia. reflexivity. }
  cbv zeta.
  split; [reflexivity|].
  split; [exact Er|]. split; [exact Ector|].
  split; [reflexivity|]. split; [reflexivity|].
  split; [exact FAp|]. split; [exact FBp|]. simpl.
  split.
  - intros i p q Hi Epq.
    destruct (indexToPQ_in_triangle i (order + 1) p q ltac:(lia) Hi Epq)
      as (Hp & Hq & Hpq & Eidx).
    destruct (Hfwd p q) as [Hw Hun]. split.
    + intros Hdeg. rewrite <- Eidx. apply Hw.
      split; [assumption|]. split; [assumption|]. split; [lia|]. lia.
    + intros Hdeg. destruct Hun as [EA EB]; [intros (_ & _ & ? & _); lia|].
      rewrite EA, EB. split; apply mat_get_Zero; lia.
  - intros j p q Hj Epq.
    destruct (indexToPQ_in_triangle j (order + 2) p q ltac:(lia) Hj Epq)
      as (Hp & Hq & Hpq & Eidx).
    destruct (Hrev p q) as [Hw _]. rewrite <- Eidx. apply Hw.
    split; [assumption|]. split; [assumption|]. split; [assumption|]. lia.
Qed.

(** With the four corner matches and order 2 the forward order is 3 and the
    terms of degree 2 are those of index 2, 4 and 5, at (0,2), (1,1) and
    (2,0): the solved vectors are mu = (0,2,0,2,0,0) and nu = (0,0,2,2,0,0),
    the refined matrix is ((2,2),(2,0)), its inverse ((0,1/2),(1/2,-1/2)),
    and the scale is 1. *)
Lemma sip_coefficients_written_witness :
  ∃ h' this', constructor [unitWcs] cornerMatches 0%nat 2 emptyBox 0 = Ok (h', this') ∧
    mat_get (_sipA this') 0 2 = Ok 1%Q ∧ mat_get (_sipB this') 0 2 = Ok (Qmake (-1) 1) ∧
    mat_get (_sipA this') 1 1 = Ok 0%Q ∧ mat_get (_sipB this') 1 1 = Ok 0%Q ∧
    mat_get (_sipA this') 0 0 = Ok 0%Q ∧ mat_get (_sipA this') 0 1 = Ok 0%Q ∧
    mat_get (_sipA this') 1 0 = Ok 0%Q ∧
    mat_get (_sipAp this') 0 0 = Ok 0%Q ∧ mat_get (_sipAp this') 0 1 = Ok 0%Q.
Proof.
  destruct (sip_coefficients_written [unitWcs] cornerMatches 0%nat 2
              emptyBox 0 unitWcs Q_solve_length eq_refl)
    as (sol & h' & this1 & refined & mu_1 & mu_ord & nu_1 & nu_ord & rnorm & tmpA & tmpB
        & this' & Hrun);
    [lia|simpl; lia|lia|].
  cbv zeta in Hrun.
  destruct Hrun as (Es & G1 & G2 & G3 & G4 & Ef & Href & _ & Er & Ector & _ & _ & _ & _
                    & Hfwd & Hrev).
  vm_compute in Es. injection Es as <-.
  vm_compute in G1, G2, G3, G4.
  injection G1 as <-. injection G2 as <-. injection G3 as <-. injection G4 as <-.
  vm_compute in Ef. injection Ef as <- <-.
  vm_compute in Href. injection Href as <-.
  vm_compute in Er. injection Er as <- <- <-.
  eexists _, this'. split; [exact Ector|].
  assert (T3 : ∀ i, 0 ≤ i < 6 → 0 ≤ i < nTerms (2 + 1)) by (intros i Hi; exact Hi).
  assert (T4 : ∀ j, 0 ≤ j < 10 → 0 ≤ j < nTerms (2 + 2)) by (intros j Hj; exact Hj).
  destruct (proj1 (Hfwd 2 0 2 (T3 2 ltac:(lia)) eq_refl) ltac:(lia))
    as (m2 & n2 & Em2 & En2 & EA2 & EB2).
  vm_compute in Em2, En2. injection Em2 as <-. injection En2 as <-.
  destruct (proj1 (Hfwd 4 1 1 (T3 4 ltac:(lia)) eq_refl) ltac:(lia))
    as (m4 & n4 & Em4 & En4 & EA4 & EB4).
  vm_compute in Em4, En4. injection Em4 as <-. injection En4 as <-.
  destruct (proj2 (Hfwd 0 0 0 (T3 0 ltac:(lia)) eq_refl) ltac:(lia)) as [Z0 _].
  destruct (proj2 (Hfwd 1 0 1 (T3 1 ltac:(lia)) eq_refl) ltac:(lia)) as [Z1 _].
  destruct (proj2 (Hfwd 3 1 0 (T3 3 ltac:(lia)) eq_refl) ltac:(lia)) as [Z3 _].
  destruct (Hrev 0 0 0 (T4 0 ltac:(lia)) eq_refl) as (a0 & b0 & Ea0 & _ & EAp0 & _).
  vm_compute in Ea0. injection Ea0 as <-.
  destruct (Hrev 1 0 1 (T4 1 ltac:(lia)) eq_refl) as (a1 & b1 & Ea1 & _ & EAp1 & _).
  vm_compute in Ea1. injection Ea1 as <-.
  rewrite EA2, EB2, EA4, EB4, Z0, Z1, Z3, EAp0, EAp1.
  repeat split; reflexivity.
Defined.

(** * Further properties *)

(** ** Term indexer *)

(** X1: on 32-bit [int]s no step of the loop of [indexToPQ] overflows: for
    every [int] index and order the loop with all results reduced to the
    range of [int] returns what the loop on unbounded integers returns. *)
Theorem indexToPQ_int32_exact (index order : Z) :
  int_min ≤ index ≤ int_max → int_min ≤ order ≤ int_max →
  indexToPQ32 index order = indexToPQ index order.
Proof.
  intros Hi Ho. unfold indexToPQ32, indexToPQ.
  apply indexToPQ_loop_no_overflow; try assumption; [lia|].
  unfold int_max in *. lia.
Qed.

Lemma indexToPQ_int32_exact_witness :
  indexToPQ32 2147483647 9 = indexToPQ 2147483647 9.
Proof.
  apply (indexToPQ_int32_exact 2147483647 9); unfold int_min, int_max; lia.
Defined.

Lemma indexToPQ_overrun (index order : Z) :
  0 ≤ order → nTerms order ≤ index →
  indexToPQ index order = (order, index - nTerms order).
Proof.
  intros Ho Hi. pose proof (nTerms_nonneg order Ho) as HT.
  destruct (indexToPQ_spec index order Ho ltac:(lia))
    as (p & q & E & Hp & Hq & Hsum & Hend).
  rewrite E. pose proof (nTerms_double order) as Hd.
  destruct Hend as [Hlt| ->].
  - exfalso.
    assert (0 ≤ (order - p) * (order - p - 1)) by (apply Z.mul_nonneg_nonneg; lia).
    lia.
  - f_equal. lia.
Qed.

(** X2: an index at or beyond the number of terms is not rejected: the loop
    runs through all [order] rows and returns [p = order] with the excess
    [index - order*(order+1)/2] as [q], a pair outside the triangle. *)
Theorem indexToPQ_beyond_range (index order : Z) :
  0 ≤ order → nTerms order ≤ index →
  indexToPQ index order = (order, index - nTerms order) ∧
  order ≤ (indexToPQ index order).1 + (indexToPQ index order).2.
Proof.
  intros Ho Hi. rewrite (indexToPQ_overrun index order Ho Hi).
  split; [reflexivity|]. simpl. lia.
Qed.

Lemma indexToPQ_beyond_range_witness :
  indexToPQ 8 3 = (3, 8 - nTerms 3) ∧ 3 ≤ (indexToPQ 8 3).1 + (indexToPQ 8 3).2.
Proof.
  apply (indexToPQ_beyond_range 8 3); [lia|]. vm_compute. discriminate.
Defined.

(** X3: an index below the order, and any index when the order is not
    positive, is returned unchanged as [q] with [p = 0]: the loop body is
    not entered. *)
Theorem indexToPQ_first_row (index order : Z) :
  index < order ∨ order ≤ 0 → indexToPQ index order = (0, index).
Proof.
  intros Hc. unfold indexToPQ.
  destruct (Z.to_nat order); simpl; repeat case_bool_decide; simpl;
    try reflexivity; lia.
Qed.

Lemma indexToPQ_first_row_witness :
  indexToPQ 2 5 = (0, 2) ∧ indexToPQ 7 (-1) = (0, 7) ∧ indexToPQ (-4) 3 = (0, -4).
Proof.
  split; [|split].
  - apply (indexToPQ_first_row 2 5). left. lia.
  - apply (indexToPQ_first_row 7 (-1)). right. lia.
  - apply (indexToPQ_first_row (-4) 3). left. lia.
Defined.

(** X4: for every order from 0 on, [indexToPQ] and the closed form
    [index = p*order - p*(p-1)/2 + q] are inverse to each other between the
    indices below order*(order+1)/2 and the pairs of the triangle. *)
Theorem indexToPQ_closed_form_round_trip (order : Z) :
  0 ≤ order →
  (∀ index p q, 0 ≤ index < nTerms order → indexToPQ index order = (p, q) →
     0 ≤ p ∧ 0 ≤ q ∧ p + q < order ∧ p * order - p * (p - 1) / 2 + q = index) ∧
  (∀ p q, 0 ≤ p → 0 ≤ q → p + q < order →
     0 ≤ p * order - p * (p - 1) / 2 + q < nTerms order ∧
     indexToPQ (p * order - p * (p - 1) / 2 + q) order = (p, q)).
Proof.
  intros Ho. split.
  - intros index p q Hi E. exact (indexToPQ_in_triangle index order p q Ho Hi E).
  - intros p q Hp Hq Hpq. split.
    + exact (pqToIndex_range p q order Hp Hq Hpq).
    + exact (indexToPQ_pqToIndex p q order Hp Hq Hpq).
Qed.

Lemma indexToPQ_closed_form_round_trip_witness :
  (∀ index p q, 0 ≤ index < nTerms 12 → indexToPQ index 12 = (p, q) →
     0 ≤ p ∧ 0 ≤ q ∧ p + q < 12 ∧ p * 12 - p * (p - 1) / 2 + q = index) ∧
  (∀ p q, 0 ≤ p → 0 ≤ q → p + q < 12 →
     0 ≤ p * 12 - p * (p - 1) / 2 + q < nTerms 12 ∧
     indexToPQ (p * 12 - p * (p - 1) / 2 + q) 12 = (p, q)).
Proof. apply (indexToPQ_closed_form_round_trip 12). lia. Defined.

(** X5: the indices enumerate the pairs in lexicographic order: a smaller
    index has a smaller [p], or the same [p] and a smaller [q]. *)
Theorem indexToPQ_lexicographic (order i j pi qi pj qj : Z) :
  0 ≤ order → 0 ≤ i → i < j → j < nTerms order →
  indexToPQ i order = (pi, qi) → indexToPQ j order = (pj, qj) →
  pi < pj ∨ (pi = pj ∧ qi < qj).
Proof.
  intros Ho Hi Hij Hj Ei Ej.
  destruct (indexToPQ_in_triangle i order pi qi Ho ltac:(lia) Ei) as (Hpi & Hqi & Hti & Eidxi).
  destruct (indexToPQ_in_triangle j order pj qj Ho ltac:(lia) Ej) as (Hpj & Hqj & Htj & Eidxj).
  pose proof (pqToIndex_double pi qi order) as Di. rewrite Eidxi in Di.
  pose proof (pqToIndex_double pj qj order) as Dj. rewrite Eidxj in Dj.
  destruct (Z.lt_trichotomy pi pj) as [Hlt|[->|Hgt]]; [left; assumption|right|exfalso].
  - split; [reflexivity|lia].
  - assert (0 ≤ (pi - (pj + 1)) * (2 * order - pi - pj))
      by (apply Z.mul_nonneg_nonneg; lia).
    lia.
Qed.

Lemma indexToPQ_lexicographic_witness :
  indexToPQ 2 3 = (0, 2) ∧ indexToPQ 3 3 = (1, 0) ∧ (0 < 1 ∨ (0 = 1 ∧ 2 < 0)).
Proof.
  split; [reflexivity|]. split; [reflexivity|].
  apply (indexToPQ_lexicographic 3 2 3 0 2 1 0); try lia; reflexivity.
Defined.

(** X6: from order 2 on, the terms of total degree at most 1 are exactly
    those of the indices 0, 1 and [order], the three entries the forward fit
    takes for the origin shift and the CD matrix; every other index in range
    has degree above 1 and gives a distortion coefficient. *)
Theorem indexToPQ_linear_terms (order index : Z) :
  2 ≤ order → 0 ≤ index < nTerms order →
  ((indexToPQ index order).1 + (indexToPQ index order).2 ≤ 1
   ↔ index = 0 ∨ index = 1 ∨ index = order).
Proof.
  intros Ho Hi. destruct (indexToPQ_fixed_points order Ho) as (F0 & F1 & F2).
  split.
  - destruct (indexToPQ index order) as [p q] eqn:E. simpl. intros Hdeg.
    destruct (indexToPQ_in_triangle index order p q ltac:(lia) Hi E)
      as (Hp & Hq & _ & Eidx).
    assert (Hc : (p = 0 ∧ q = 0) ∨ (p = 0 ∧ q = 1) ∨ (p = 1 ∧ q = 0)) by lia.
    destruct Hc as [[-> ->]|[[-> ->]|[-> ->]]].
    + left. apply (indexToPQ_injective order); try lia. congruence.
    + right. left. apply (indexToPQ_injective order); try lia. congruence.
    + right. right. apply (indexToPQ_injective order); try lia. congruence.
  - intros [-> | [-> | ->]]; [rewrite F0|rewrite F1|rewrite F2]; simpl; lia.
Qed.

Lemma indexToPQ_linear_terms_witness :
  ((indexToPQ 2 4).1 + (indexToPQ 2 4).2 ≤ 1 ↔ 2 = 0 ∨ 2 = 1 ∨ 2 = 4).
Proof.
  apply (indexToPQ_linear_terms 4 2); [lia|]. vm_compute. split; [discriminate|reflexivity].
Defined.

(** ** Design matrix builder *)




(** ** The constructor as a whole *)

Section ConstructorExtras.
Context {D Coord : Type} `{DoubleOps D} `{Collaborators D Coord}.
Implicit Types (h : heap D) (this : CreateWcsWithSip D Coord) (lw : Wcs D).
Implicit Types (matches : list (Match D Coord)) (bbox : Box2I).

Hypothesis solve_length :
  ∀ (A : MatrixXd D) (b : VectorXd D), length (jacobiSvdSolve A b) = mat_cols A.

(** The box the constructor works with when none is supplied. *)
Lemma guessBBox_empty this :
  isEmpty (_bbox this) = true → _matches this ≠ [] →
  _bbox (guessBBox this) =
    grow (foldl include (_bbox this) (pixelOf <$> _matches this))
      (borderOf (borderFrac (length (_matches this)))
         (getWidth (foldl include (_bbox this) (pixelOf <$> _matches this))),
       borderOf (borderFrac (length (_matches this)))
         (getHeight (foldl include (_bbox this) (pixelOf <$> _matches this)))).
Proof.
  intros Eb Hne. unfold guessBBox. rewrite Eb.
  rewrite (bool_decide_eq_false_2 (_matches this = [])) by assumption. simpl.
  rewrite <- foldl_fmap. reflexivity.
Qed.

Lemma guessBBox_supplied this :
  isEmpty (_bbox this) = false → guessBBox this = this.
Proof. intros Eb. unfold guessBBox. rewrite Eb. reflexivity. Qed.

Lemma defaultGrid_bbox this :
  _bbox (defaultGrid this) = _bbox this ∧ _matches (defaultGrid this) = _matches this.
Proof. unfold defaultGrid. case_bool_decide; auto. Qed.

(** The shapes of the matrices the two loops leave in the constructed
    object, with the run named as in [constructor_returns]. *)
Lemma constructor_matrices h matches (linearWcs : ptr) (order : Z) bbox (ngrid : Z) lw :
  h !! linearWcs = Some lw → 2 ≤ order ≤ 7 →
  order + 1 ≤ Z.of_nat (length matches) →
  ∃ h' this',
    constructor h matches linearWcs order bbox ngrid = Ok (h', this') ∧
    mat_wf (_sipA this') (order + 1) (order + 1) ∧
    mat_wf (_sipB this') (order + 1) (order + 1) ∧
    mat_wf (_sipAp this') (order + 2) (order + 2) ∧
    mat_wf (_sipBp this') (order + 2) (order + 2).
Proof.
  intros E Ho Hn.
  destruct (constructor_returns solve_length h matches linearWcs order bbox ngrid lw
              E Ho Hn)
    as (sol & CD & crpix & AB & norm & tmpA & tmpB & ABp & Hrun).
  cbv zeta in Hrun.
  destruct Hrun as (Es & _ & Hmu & Hnu & ECD & _ & EAB & Er & HtA & HtB & EABp & Ef & _ & Ector).
  destruct (prologue_fields (initialMembers matches (length h) order bbox ngrid))
    as (_ & _ & Fo & Fr & FA & FB & FAp & FBp & _ & _).
  simpl in Fo, Fr, FA, FB, FAp, FBp.
  pose proof (nTerms_above (order + 1) ltac:(lia)) as HT.
  pose proof (nTerms_nonneg (order + 2) ltac:(lia)) as HT'.
  destruct (forward_loop_spec (order + 1) (inverse CD) (fs_norm sol) (fs_mu sol)
              (fs_nu sol) (Zero (order + 1) (order + 1)) (Zero (order + 1) (order + 1))
              (nTerms (order + 1)))
    as (A' & B' & E1 & WA & WB & _);
    [lia|apply Zero_wf; lia|apply Zero_wf; lia|assumption|assumption|lia|].
  destruct (reverse_loop_spec (order + 2) norm tmpA tmpB
              (Zero (order + 2) (order + 2)) (Zero (order + 2) (order + 2))
              (nTerms (order + 2)))
    as (Ap' & Bp' & E2 & WAp & WBp & _);
    [lia|apply Zero_wf; lia|apply Zero_wf; lia|assumption|assumption|lia|].
  assert (AB = (A', B')) as ->.
  { unfold forwardSipTerms in EAB. rewrite Fo, FA, FB in EAB. congruence. }
  assert (ABp = (Ap', Bp')) as ->.
  { unfold reverseSipTerms in EABp. simpl in EABp. rewrite Fr, FAp, FBp in EABp.
    congruence. }
  eexists _, _. split; [exact Ector|]. simpl. auto.
Qed.

End ConstructorExtras.



(** X9: the constructor accepts fits with fewer matches than coefficients:
    the check of the number of matches is against order + 1, while each of
    the two forward solves has (order+1)*(order+2)/2 unknowns, which is
    always more; with order + 1 matches, and a grid resolution of at most
    46340 (so that [ngrid2] is in the range of [int]), the constructor
    returns. *)
Theorem constructor_accepts_underdetermined
    {D Coord : Type} `{DoubleOps D} `{Collaborators D Coord}
    (h : heap D) (matches : list (Match D Coord)) (linearWcs : ptr) (order : Z)
    (bbox : Box2I) (ngrid : Z) (lw : Wcs D) :
  (∀ (A : MatrixXd D) (b : VectorXd D), length (jacobiSvdSolve A b) = mat_cols A) →
  h !! linearWcs = Some lw → 2 ≤ order ≤ 7 →
  Z.of_nat (length matches) = order + 1 →
  ngrid ≤ 46340 →
  let this0 :=
    guessBBox (defaultGrid (initialMembers matches (length h) order bbox ngrid)) in
  ∃ sol h' this',
    forwardSolve (h ++ [lw]) this0 = Ok sol ∧
    constructor h matches linearWcs order bbox ngrid = Ok (h', this') ∧
    Z.of_nat (length (fs_mu sol)) = nTerms (order + 1) ∧
    Z.of_nat (length (fs_nu sol)) = nTerms (order + 1) ∧
    Z.of_nat (length matches) < nTerms (order + 1).
Proof.
  intros solve_length E Ho Hn _ this0.
  destruct (constructor_returns solve_length h matches linearWcs order bbox ngrid lw
              E Ho ltac:(lia))
    as (sol & CD & crpix & AB & norm & tmpA & tmpB & ABp & Hrun).
  fold this0 in Hrun. cbv zeta in Hrun.
  destruct Hrun as (Es & _ & Hmu & Hnu & _ & _ & _ & _ & _ & _ & _ & _ & _ & Ector).
  eexists sol, _, _. split; [exact Es|]. split; [exact Ector|].
  split; [assumption|]. split; [assumption|].
  pose proof (nTerms_above (order + 1) ltac:(lia)). lia.
Qed.

Lemma constructor_accepts_underdetermined_witness :
  ∃ sol h' this',
    forwardSolve ([unitWcs] ++ [unitWcs])
      (guessBBox (defaultGrid (initialMembers cornerMatches 1%nat 3 emptyBox 0))) = Ok sol ∧
    constructor [unitWcs] cornerMatches 0%nat 3 emptyBox 0 = Ok (h', this') ∧
    Z.of_nat (length (fs_mu sol)) = nTerms (3 + 1) ∧
    Z.of_nat (length (fs_nu sol)) = nTerms (3 + 1) ∧
    Z.of_nat (length cornerMatches) < nTerms (3 + 1).
Proof.
  apply (constructor_accepts_underdetermined [unitWcs] cornerMatches 0%nat 3 emptyBox 0
           unitWcs Q_solve_length eq_refl); [lia|reflexivity|lia].
Defined.



(** X11: the two-phase construction of the composite transform: the
    transform the reverse fit consults carries the forward matrices in their
    final state and reverse matrices that are still all zero, and the final
    composite transform differs from it in the two reverse matrices only. *)
Theorem reverse_fit_sees_final_forward_part
    {D Coord : Type} `{DoubleOps D} `{Collaborators D Coord}
    (h : heap D) (matches : list (Match D Coord)) (linearWcs : ptr) (order : Z)
    (bbox : Box2I) (ngrid : Z) (lw : Wcs D) :
  (∀ (A : MatrixXd D) (b : VectorXd D), length (jacobiSvdSolve A b) = mat_cols A) →
  h !! linearWcs = Some lw → 2 ≤ order ≤ 7 →
  order + 1 ≤ Z.of_nat (length matches) →
  let this0 :=
    guessBBox (defaultGrid (initialMembers matches (length h) order bbox ngrid)) in
  ∃ h' this1 w this3 this' w',
    _calculateForwardMatrices (h ++ [lw]) this0 = Ok (h', this1) ∧
    _calculateReverseMatrices (set_newWcs this1 w) = Ok this3 ∧
    constructor h matches linearWcs order bbox ngrid = Ok (h', this') ∧
    _newWcs this' = Some w' ∧
    tan_sipA w = _sipA this' ∧ tan_sipB w = _sipB this' ∧
    tan_sipAp w = Zero (order + 2) (order + 2) ∧
    tan_sipBp w = Zero (order + 2) (order + 2) ∧
    tan_crval w' = tan_crval w ∧ tan_crpix w' = tan_crpix w ∧ tan_CD w' = tan_CD w ∧
    tan_sipA w' = tan_sipA w ∧ tan_sipB w' = tan_sipB w ∧
    tan_sipAp w' = _sipAp this3 ∧ tan_sipBp w' = _sipBp this3.
Proof.
  intros solve_length E Ho Hn this0.
  destruct (constructor_returns solve_length h matches linearWcs order bbox ngrid lw
              E Ho Hn)
    as (sol & CD & crpix & AB & norm & tmpA & tmpB & ABp & Hrun).
  fold this0 in Hrun. cbv zeta in Hrun.
  destruct Hrun as (_ & _ & _ & _ & _ & _ & _ & _ & _ & _ & _ & Ef & Erev & Ector).
  destruct (prologue_fields (initialMembers matches (length h) order bbox ngrid))
    as (_ & _ & _ & _ & _ & _ & FAp & FBp & _).
  fold this0 in FAp, FBp. simpl in FAp, FBp.
  eexists _, _, _, _, _, _.
  split; [exact Ef|]. split; [exact Erev|]. split; [exact Ector|].
  split; [reflexivity|]. simpl. rewrite FAp, FBp. auto 12.
Qed.

Lemma reverse_fit_sees_final_forward_part_witness :
  ∃ h' this' w', constructor [unitWcs] cornerMatches 0%nat 2 emptyBox 0 = Ok (h', this') ∧
    _newWcs this' = Some w' ∧ tan_sipA w' = _sipA this' ∧ tan_sipB w' = _sipB this'.
Proof.
  destruct (reverse_fit_sees_final_forward_part [unitWcs] cornerMatches 0%nat 2
              emptyBox 0 unitWcs Q_solve_length eq_refl)
    as (h' & this1 & w & this3 & this' & w' & Hrun); [lia|simpl; lia|].
  cbv zeta in Hrun.
  destruct Hrun as (_ & _ & Ector & Ew & EA & EB & _ & _ & _ & _ & _ & EA' & EB' & _).
  exists h', this', w'. split; [exact Ector|]. split; [exact Ew|].
  split; congruence.
Defined.

(** X12: the two loops keep the shapes of the coefficient matrices: in the
    constructed object the forward matrices are (order+1) x (order+1) and
    the reverse matrices (order+2) x (order+2), every row of full length. *)
Theorem coefficient_matrices_keep_shape
    {D Coord : Type} `{DoubleOps D} `{Collaborators D Coord}
    (h : heap D) (matches : list (Match D Coord)) (linearWcs : ptr) (order : Z)
    (bbox : Box2I) (ngrid : Z) (lw : Wcs D) :
  (∀ (A : MatrixXd D) (b : VectorXd D), length (jacobiSvdSolve A b) = mat_cols A) →
  h !! linearWcs = Some lw → 2 ≤ order ≤ 7 →
  order + 1 ≤ Z.of_nat (length matches) →
  ∃ h' this',
    constructor h matches linearWcs order bbox ngrid = Ok (h', this') ∧
    mat_wf (_sipA this') (_sipOrder this') (_sipOrder this') ∧
    mat_wf (_sipB this') (_sipOrder this') (_sipOrder this') ∧
    mat_wf (_sipAp this') (_reverseSipOrder this') (_reverseSipOrder this') ∧
    mat_wf (_sipBp this') (_reverseSipOrder this') (_reverseSipOrder this').
Proof.
  intros solve_length E Ho Hn.
  destruct (constructor_matrices solve_length h matches linearWcs order bbox ngrid lw
              E Ho Hn) as (h' & this' & Ector & WA & WB & WAp & WBp).
  destruct (constructor_returns solve_length h matches linearWcs order bbox ngrid lw
              E Ho Hn)
    as (sol & CD & crpix & AB & norm & tmpA & tmpB & ABp & Hrun).
  cbv zeta in Hrun.
  destruct Hrun as (_ & _ & _ & _ & _ & _ & _ & _ & _ & _ & _ & _ & _ & Ector').
  rewrite Ector in Ector'. injection Ector' as -> ->.
  destruct (prologue_fields (initialMembers matches (length h) order bbox ngrid))
    as (_ & _ & Fo & Fr & _).
  simpl in Fo, Fr.
  eexists _, _. split; [exact Ector|]. simpl in *. rewrite Fo, Fr. auto.
Qed.

Lemma coefficient_matrices_keep_shape_witness :
  ∃ h' this',
    constructor [unitWcs] cornerMatches 0%nat 2 emptyBox 0 = Ok (h', this') ∧
    mat_wf (_sipA this') (_sipOrder this') (_sipOrder this') ∧
    mat_wf (_sipB this') (_sipOrder this') (_sipOrder this') ∧
    mat_wf (_sipAp this') (_reverseSipOrder this') (_reverseSipOrder this') ∧
    mat_wf (_sipBp this') (_reverseSipOrder this') (_reverseSipOrder this').
Proof.
  apply (coefficient_matrices_keep_shape [unitWcs] cornerMatches 0%nat 2 emptyBox 0
           unitWcs Q_solve_length eq_refl); [lia|simpl; lia].
Defined.

(** X13: a validity region that is supplied (a box that is not empty) is
    used as it is: the constructed object holds the caller's box. *)
Theorem supplied_bbox_kept
    {D Coord : Type} `{DoubleOps D} `{Collaborators D Coord}
    (h : heap D) (matches : list (Match D Coord)) (linearWcs : ptr) (order : Z)
    (bbox : Box2I) (ngrid : Z) (lw : Wcs D) :
  (∀ (A : MatrixXd D) (b : VectorXd D), length (jacobiSvdSolve A b) = mat_cols A) →
  h !! linearWcs = Some lw → 2 ≤ order ≤ 7 →
  order + 1 ≤ Z.of_nat (length matches) →
  isEmpty bbox = false →
  ∃ h' this',
    constructor h matches linearWcs order bbox ngrid = Ok (h', this') ∧
    _bbox this' = bbox.
Proof.
  intros solve_length E Ho Hn Eb.
  destruct (constructor_returns solve_length h matches linearWcs order bbox ngrid lw
              E Ho Hn)
    as (sol & CD & crpix & AB & norm & tmpA & tmpB & ABp & Hrun).
  cbv zeta in Hrun.
  destruct Hrun as (_ & _ & _ & _ & _ & _ & _ & _ & _ & _ & _ & _ & _ & Ector).
  eexists _, _. split; [exact Ector|]. simpl.
  destruct (defaultGrid_bbox (initialMembers matches (length h) order bbox ngrid))
    as [Fb _].
  rewrite guessBBox_supplied by (rewrite Fb; exact Eb).
  exact Fb.
Qed.

Lemma supplied_bbox_kept_witness :
  ∃ h' this',
    constructor [unitWcs] cornerMatches 0%nat 2 (mkBox2I (0, 0) (10, 20)) 0 = Ok (h', this') ∧
    _bbox this' = mkBox2I (0, 0) (10, 20).
Proof.
  apply (supplied_bbox_kept [unitWcs] cornerMatches 0%nat 2 (mkBox2I (0, 0) (10, 20)) 0
           unitWcs Q_solve_length eq_refl); [lia|simpl; lia|reflexivity].
Defined.

(** X14: when the validity region is guessed and the two computed borders
    are not negative, every observed position, as the integer pixel the
    constructor converts it to, lies inside the region. *)
Theorem guessed_bbox_contains_matches
    {D Coord : Type} `{DoubleOps D} `{Collaborators D Coord}
    (h : heap D) (matches : list (Match D Coord)) (linearWcs : ptr) (order : Z)
    (bbox : Box2I) (ngrid : Z) (lw : Wcs D) :
  (∀ (A : MatrixXd D) (b : VectorXd D), length (jacobiSvdSolve A b) = mat_cols A) →
  h !! linearWcs = Some lw → 2 ≤ order ≤ 7 →
  order + 1 ≤ Z.of_nat (length matches) →
  isEmpty bbox = true →
  let B := foldl include bbox (pixelOf <$> matches) in
  0 ≤ borderOf (borderFrac (length matches)) (getWidth B) →
  0 ≤ borderOf (borderFrac (length matches)) (getHeight B) →
  ∃ h' this',
    constructor h matches linearWcs order bbox ngrid = Ok (h', this') ∧
    ∀ m, m ∈ matches →
      getMinX (_bbox this') ≤ (pixelOf m).1 ≤ getMaxX (_bbox this') ∧
      getMinY (_bbox this') ≤ (pixelOf m).2 ≤ getMaxY (_bbox this').
Proof.
  intros solve_length E Ho Hn Eb B Hx Hy.
  destruct (constructor_returns solve_length h matches linearWcs order bbox ngrid lw
              E Ho Hn)
    as (sol & CD & crpix & AB & norm & tmpA & tmpB & ABp & Hrun).
  cbv zeta in Hrun.
  destruct Hrun as (_ & _ & _ & _ & _ & _ & _ & _ & _ & _ & _ & _ & _ & Ector).
  assert (Hne : matches ≠ []) by (intros ->; simpl in Hn; lia).
  eexists _, _. split; [exact Ector|]. simpl.
  destruct (defaultGrid_bbox (initialMembers matches (length h) order bbox ngrid))
    as [Fb Fm].
  simpl in Fb, Fm.
  rewrite guessBBox_empty by (rewrite ?Fb, ?Fm; assumption).
  rewrite Fb, Fm. fold B.
  assert (HB : is_bounding_box B (pixelOf <$> matches)).
  { apply foldl_include_bounding; [assumption|].
    destruct matches; [contradiction|discriminate]. }
  destruct HB as (HW & HH & Hin & _).
  destruct (grow_sides B _ _ HW HH Hx Hy) as (G1 & G2 & G3 & G4).
  rewrite G1, G2, G3, G4.
  intros m Hm.
  destruct (Hin (pixelOf m)) as [Hmx Hmy]; [apply list_elem_of_fmap_2; assumption|].
  unfold pixelOf in *. simpl in *. lia.
Qed.

Lemma guessed_bbox_contains_matches_witness :
  ∃ h' this',
    constructor [unitWcs] cornerMatches 0%nat 2 emptyBox 0 = Ok (h', this') ∧
    ∀ m, m ∈ cornerMatches →
      getMinX (_bbox this') ≤ (pixelOf m).1 ≤ getMaxX (_bbox this') ∧
      getMinY (_bbox this') ≤ (pixelOf m).2 ≤ getMaxY (_bbox this').
Proof.
  apply (guessed_bbox_contains_matches [unitWcs] cornerMatches 0%nat 2 emptyBox 0
           unitWcs Q_solve_length eq_refl); [lia|simpl; lia|reflexivity| |];
    vm_compute; discriminate.
Defined.

(** ** The coefficient loops beyond the terms *)

Lemma mat_set_row_out_of_range {D : Type} `{DoubleOps D} (M : MatrixXd D)
    (i j : Z) (x : D) :
  rows M ≤ i → mat_set M i j x = Abort.
Proof.
  intros Hi. unfold mat_set, rows in *.
  destruct (_ && _); [|reflexivity].
  rewrite lookup_ge_None_2 by lia. reflexivity.
Qed.

(** X15: the guard [p + q < ord] of the forward loop makes an iteration at
    an index at or beyond the number of terms a no-op, while the reverse
    loop, which has no guard, stops there at a write outside its matrix
    (row [ord] of an [ord] x [ord] matrix) or at the read of the
    coefficient. *)
Theorem coefficient_loops_beyond_terms {D : Type} `{DoubleOps D}
    (ord : Z) (CDinv : Matrix2d D) (norm : D) (mu nu : VectorXd D)
    (i : Z) (AB : MatrixXd D * MatrixXd D) :
  0 ≤ ord → nTerms ord ≤ i →
  forwardSipTerm ord CDinv norm mu nu i AB = Ok AB ∧
  (rows AB.1 = ord → reverseSipTerm ord norm mu nu i AB = Abort).
Proof.
  intros Ho Hi. pose proof (nTerms_nonneg ord Ho) as HT.
  pose proof (indexToPQ_overrun i ord Ho Hi) as E.
  split.
  - unfold forwardSipTerm. rewrite E. simpl.
    rewrite (bool_decide_eq_false_2 (ord + (i - nTerms ord) < ord)) by lia.
    rewrite andb_false_r. reflexivity.
  - intros Hr. unfold reverseSipTerm. rewrite E. simpl.
    unfold vec_get. rewrite bool_decide_eq_true_2 by lia.
    destruct (mu !! Z.to_nat i); [|reflexivity]. simpl.
    rewrite mat_set_row_out_of_range by lia. reflexivity.
Qed.

Lemma coefficient_loops_beyond_terms_witness :
  forwardSipTerm 3 (mkMatrix2d 1%Q 0%Q 0%Q 1%Q) 1%Q [1%Q] [1%Q] 6
    (Zero 3 3, Zero 3 3) = Ok (Zero 3 3, Zero 3 3) ∧
  (rows (Zero 3 3 : MatrixXd Q) = 3 →
   reverseSipTerm 3 1%Q [1%Q] [1%Q] 6 (Zero 3 3, Zero 3 3) = Abort).
Proof.
  apply (coefficient_loops_beyond_terms 3 (mkMatrix2d 1%Q 0%Q 0%Q 1%Q) 1%Q
           [1%Q] [1%Q] 6 (Zero 3 3, Zero 3 3)); [lia|vm_compute; discriminate].
Defined.

(** ** Residual statistics *)

Import ExactStatistics.

(** X16: once the constructor has returned, none of the four scatter
    queries stops at its assertion; the two composite queries evaluate the
    final composite transform, and the two "linear" queries evaluate the
    refined linear transform the forward fit installed (the linear part of
    the composite transform), not the transform the caller passed in; all
    use the matches passed to the constructor.  On the object as
    initialised, before any fit, the two composite queries stop at their
    assertion. *)
Theorem scatter_queries_after_construction
    {D Coord Angle : Type} `{DoubleOps D} `{Collaborators D Coord}
    `{Statistics D Coord Angle}
    (h : heap D) (matches : list (Match D Coord)) (linearWcs : ptr) (order : Z)
    (bbox : Box2I) (ngrid : Z) (lw : Wcs D) :
  (∀ (A : MatrixXd D) (b : VectorXd D), length (jacobiSvdSolve A b) = mat_cols A) →
  h !! linearWcs = Some lw → 2 ≤ order ≤ 7 →
  order + 1 ≤ Z.of_nat (length matches) →
  (∃ h' this' w refined,
     constructor h matches linearWcs order bbox ngrid = Ok (h', this') ∧
     _newWcs this' = Some w ∧
     h' !! _linearWcs this' = Some refined ∧
     _linearWcs this' ≠ linearWcs ∧
     getPixelOrigin refined = tan_crpix w ∧ getCDMatrix refined = tan_CD w ∧
     getScatterInPixels this' =
       Ok (makeMatchStatisticsInPixels (SipWcs w) matches) ∧
     getLinearScatterInPixels h' this' =
       Ok (makeMatchStatisticsInPixels (LinearWcs refined) matches) ∧
     getScatterOnSky this' =
       Ok (radians (makeMatchStatisticsInRadians (SipWcs w) matches)) ∧
     getLinearScatterOnSky h' this' =
       Ok (radians (makeMatchStatisticsInRadians (LinearWcs refined) matches))) ∧
  getScatterInPixels (initialMembers matches (length h) order bbox ngrid) = Abort ∧
  getScatterOnSky (initialMembers matches (length h) order bbox ngrid) = Abort.
Proof.
  intros solve_length E Ho Hn. split; [|split; reflexivity].
  destruct (constructor_returns solve_length h matches linearWcs order bbox ngrid lw
              E Ho Hn)
    as (sol & CD & crpix & AB & norm & tmpA & tmpB & ABp & Hrun).
  cbv zeta in Hrun.
  destruct Hrun as (_ & _ & _ & _ & _ & _ & _ & _ & _ & _ & _ & _ & _ & Ector).
  destruct (prologue_fields (initialMembers matches (length h) order bbox ngrid))
    as (Fm & _).
  simpl in Fm.
  destruct (deref_two_more h lw (mkWcs (getSkyOriginFk5 lw) crpix CD)) as [L1 _].
  eexists _, _, _, (mkWcs (getSkyOriginFk5 lw) crpix CD).
  split; [exact Ector|]. split; [reflexivity|]. simpl.
  split.
  { rewrite lookup_app_r by lia.
    replace (S (length h) - length h)%nat with 1%nat by lia. reflexivity. }
  split; [apply lookup_lt_Some in E; lia|].
  split; [reflexivity|]. split; [reflexivity|].
  unfold getScatterInPixels, getLinearScatterInPixels, getScatterOnSky,
    getLinearScatterOnSky, newWcs_checked. simpl.
  rewrite L1, Fm. simpl. auto.
Qed.

Lemma scatter_queries_after_construction_witness :
  ∃ h' this' w refined,
    constructor [unitWcs] cornerMatches 0%nat 2 emptyBox 0 = Ok (h', this') ∧
    _newWcs this' = Some w ∧
    h' !! _linearWcs this' = Some refined ∧
    _linearWcs this' ≠ 0%nat ∧
    getPixelOrigin refined = tan_crpix w ∧ getCDMatrix refined = tan_CD w ∧
    getScatterInPixels this' =
      Ok (makeMatchStatisticsInPixels (SipWcs w) cornerMatches) ∧
    getLinearScatterInPixels h' this' =
      Ok (makeMatchStatisticsInPixels (LinearWcs refined) cornerMatches) ∧
    getScatterOnSky this' =
      Ok (radians (makeMatchStatisticsInRadians (SipWcs w) cornerMatches)) ∧
    getLinearScatterOnSky h' this' =
      Ok (radians (makeMatchStatisticsInRadians (LinearWcs refined) cornerMatches)).
Proof.
  apply (scatter_queries_after_construction (Angle := Q) [unitWcs] cornerMatches 0%nat 2
           emptyBox 0 unitWcs Q_solve_length eq_refl); [lia|simpl; lia].
Defined.

(** ** The forward fit in exact arithmetic *)

(** X17: in exact arithmetic, and when the refined CD matrix is
    invertible, the shift of the pixel origin absorbs the constant terms of
    the fit: the refined CD matrix applied to (old origin - new origin) is
    [(mu[0], nu[0])]. *)
Theorem crpix_shift_absorbs_constant_terms
    (crpix crpix' : Point2D Q) (CD : Matrix2d Q) (mu nu : VectorXd Q) (mu_0 nu_0 : Q) :
  ¬ (determinant CD == 0)%Q →
  vec_get mu 0 = Ok mu_0 → vec_get nu 0 = Ok nu_0 →
  shiftedCrpix crpix (inverse CD) mu nu = Ok crpix' →
  (m00 CD * (crpix.1 - crpix'.1) + m01 CD * (crpix.2 - crpix'.2) == mu_0)%Q ∧
  (m10 CD * (crpix.1 - crpix'.1) + m11 CD * (crpix.2 - crpix'.2) == nu_0)%Q.
Proof.
  intros Hdet Emu Enu E. unfold shiftedCrpix in E. rewrite Emu, Enu in E. simpl in E.
  injection E as <-. destruct CD as [a b c d]. destruct crpix as [c1 c2].
  unfold determinant in Hdet. simpl in *.
  rewrite !Qred_correct in Hdet. rewrite !Qred_correct.
  split; field; exact Hdet.
Qed.

Lemma crpix_shift_absorbs_constant_terms_witness :
  ∃ crpix' : Point2D Q,
    shiftedCrpix (1%Q, 1%Q) (inverse (mkMatrix2d 2%Q 1%Q 1%Q 1%Q)) [3%Q] [5%Q] = Ok crpix' ∧
    (2 * (1 - crpix'.1) + 1 * (1 - crpix'.2) == 3)%Q ∧
    (1 * (1 - crpix'.1) + 1 * (1 - crpix'.2) == 5)%Q.
Proof.
  eexists. split; [reflexivity|].
  apply (crpix_shift_absorbs_constant_terms (1%Q, 1%Q) _ (mkMatrix2d 2%Q 1%Q 1%Q 1%Q)
           [3%Q] [5%Q] 3%Q 5%Q); [vm_compute; discriminate|reflexivity..].
Defined.

(** X18: in exact arithmetic the coefficients the forward loop stores solve
    the system the source states: with an invertible CD matrix and a
    non-zero [norm^(p+q)],
    [mu[i] = (CD11*Apq + CD12*Bpq) * norm^(p+q)] and
    [nu[i] = (CD21*Apq + CD22*Bpq) * norm^(p+q)]. *)
Theorem forward_coefficients_solve_system
    (ord : Z) (CD : Matrix2d Q) (norm : Q) (mu nu : VectorXd Q) (i p q : Z)
    (AB AB' : MatrixXd Q * MatrixXd Q) (mu_i nu_i : Q) :
  ¬ (determinant CD == 0)%Q → ¬ (norm ^ (p + q) == 0)%Q →
  indexToPQ i ord = (p, q) → 1 < p + q < ord →
  vec_get mu i = Ok mu_i → vec_get nu i = Ok nu_i →
  forwardSipTerm ord (inverse CD) norm mu nu i AB = Ok AB' →
  ∃ Apq Bpq,
    mat_get AB'.1 p q = Ok Apq ∧ mat_get AB'.2 p q = Ok Bpq ∧
    ((m00 CD * Apq + m01 CD * Bpq) * norm ^ (p + q) == mu_i)%Q ∧
    ((m10 CD * Apq + m11 CD * Bpq) * norm ^ (p + q) == nu_i)%Q.
Proof.
  intros Hdet Hnorm Epq Hdeg Emu Enu E.
  unfold forwardSipTerm in E. rewrite Epq in E. simpl in E.
  rewrite (bool_decide_eq_true_2 (p + q > 1)) in E by lia.
  rewrite (bool_decide_eq_true_2 (p + q < ord)) in E by lia.
  simpl in E. rewrite Emu, Enu in E. simpl in E.
  apply bind_Ok in E as (A' & EA & E). apply bind_Ok in E as (B' & EB & E).
  injection E as <-.
  destruct (mat_set_spec _ _ _ _ _ EA) as (GA & _).
  destruct (mat_set_spec _ _ _ _ _ EB) as (GB & _).
  eexists _, _. split; [exact GA|]. split; [exact GB|].
  destruct CD as [a b c d]. unfold determinant in Hdet. simpl in *.
  rewrite !Qred_correct in Hdet. rewrite !Qred_correct.
  split; field; split; assumption.
Qed.

Lemma forward_coefficients_solve_system_witness :
  ∃ AB' Apq Bpq,
    forwardSipTerm 3 (inverse (mkMatrix2d 2%Q 1%Q 1%Q 1%Q)) 2%Q
      [0%Q; 0%Q; 8%Q] [0%Q; 0%Q; 12%Q] 2 (Zero 3 3, Zero 3 3) = Ok AB' ∧
    mat_get AB'.1 0 2 = Ok Apq ∧ mat_get AB'.2 0 2 = Ok Bpq ∧
    ((2 * Apq + 1 * Bpq) * 2 ^ (0 + 2) == 8)%Q ∧
    ((1 * Apq + 1 * Bpq) * 2 ^ (0 + 2) == 12)%Q.
Proof.
  exists (match forwardSipTerm 3 (inverse (mkMatrix2d 2%Q 1%Q 1%Q 1%Q)) 2%Q
                  [0%Q; 0%Q; 8%Q] [0%Q; 0%Q; 12%Q] 2 (Zero 3 3, Zero 3 3) with
          | Ok r => r
          | _ => (Zero 3 3, Zero 3 3)
          end).
  destruct (forward_coefficients_solve_system 3 (mkMatrix2d 2%Q 1%Q 1%Q 1%Q) 2%Q
              [0%Q; 0%Q; 8%Q] [0%Q; 0%Q; 12%Q] 2 0 2 (Zero 3 3, Zero 3 3)
              (match forwardSipTerm 3 (inverse (mkMatrix2d 2%Q 1%Q 1%Q 1%Q)) 2%Q
                       [0%Q; 0%Q; 8%Q] [0%Q; 0%Q; 12%Q] 2 (Zero 3 3, Zero 3 3) with
               | Ok r => r
               | _ => (Zero 3 3, Zero 3 3)
               end) 8%Q 12%Q)
    as (Apq & Bpq & G); [vm_compute; discriminate|vm_compute; discriminate|reflexivity
                        |lia|reflexivity|reflexivity|reflexivity|].
  exists Apq, Bpq. split; [reflexivity|]. exact G.
Defined.

Lemma exact_running_max (l : list Q) (a : Q) :
  let M := foldl (λ m y, if dlt m y then y else m) a l in
  (a <= M)%Q ∧ ∀ x, x ∈ l → (x <= M)%Q.
Proof.
  revert a. induction l as [|y l IH]; intros a; simpl.
  - split; [apply Qle_refl|]. intros x Hx. inversion Hx.
  - destruct (IH (if negb (Qle_bool y a) then y else a)) as [Ha Hl].
    assert (Hstep : (a <= (if negb (Qle_bool y a) then y else a))%Q ∧
                    (y <= (if negb (Qle_bool y a) then y else a))%Q).
    { destruct (Qle_bool y a) eqn:Eb; simpl.
      - split; [apply Qle_refl|apply Qle_bool_iff; assumption].
      - split; [|apply Qle_refl]. apply Qlt_le_weak. apply Qnot_le_lt.
        intros Hle. apply Qle_bool_iff in Hle. congruence. }
    destruct Hstep as [S1 S2]. split.
    + eapply Qle_trans; eassumption.
    + intros x Hx. apply elem_of_cons in Hx as [->|Hx]; [|auto].
      eapply Qle_trans; eassumption.
Qed.

Lemma exact_maxCoeff_upper (w : VectorXd Q) (M : Q) :
  maxCoeff w = Ok M → ∀ x, x ∈ w → (x <= M)%Q.
Proof.
  destruct w as [|a w]; [discriminate|]. simpl. intros [= <-] x Hx.
  destruct (exact_running_max w a) as [Ha Hl].
  apply elem_of_cons in Hx as [->|Hx]; auto.
Qed.

(** X19: in exact arithmetic the scaling of lines 216-220 does what its
    comment says: when the scale [norm = max(max|u|, max|v|)] is positive,
    every scaled offset [u/norm] and [v/norm] lies in [-1, +1]. *)
Theorem scaled_offsets_in_unit_interval (u v : VectorXd Q) (uMax vMax : Q) :
  maxCoeff (cwiseAbs u) = Ok uMax → maxCoeff (cwiseAbs v) = Ok vMax →
  (0 < std_max uMax vMax)%Q →
  ∀ x, x ∈ vec_div u (std_max uMax vMax) ++ vec_div v (std_max uMax vMax) →
    (- (1) <= x <= 1)%Q.
Proof.
  intros Eu Ev Hpos x Hx.
  set (norm := std_max uMax vMax) in *.
  assert (Hmax : (uMax <= norm)%Q ∧ (vMax <= norm)%Q).
  { unfold norm, std_max. simpl. destruct (Qle_bool vMax uMax) eqn:Eb; simpl.
    - split; [apply Qle_refl|apply Qle_bool_iff; assumption].
    - split; [|apply Qle_refl]. apply Qlt_le_weak. apply Qnot_le_lt.
      intros Hle. apply Qle_bool_iff in Hle. congruence. }
  destruct Hmax as [Hu Hv].
  assert (Hbound : ∀ (w : VectorXd Q) (wMax : Q),
            maxCoeff (cwiseAbs w) = Ok wMax → (wMax <= norm)%Q →
            ∀ y, y ∈ vec_div w norm → (- (1) <= y <= 1)%Q).
  { intros w wMax Ew Hw y Hy. unfold vec_div in Hy.
    apply list_elem_of_fmap in Hy as (z & -> & Hz). simpl.
    assert (Habs : (Qabs z <= norm)%Q).
    { eapply Qle_trans; [|exact Hw]. rewrite <- (Qred_correct (Qabs z)).
      apply (exact_maxCoeff_upper _ _ Ew). unfold cwiseAbs.
      change (Qred (Qabs z)) with (dabs z).
      apply list_elem_of_fmap_2. assumption. }
    apply Qabs_Qle_condition in Habs as [H1 H2].
    rewrite Qred_correct. split.
    - apply Qle_shift_div_l; [assumption|].
      assert (En : (- (1) * norm == - norm)%Q) by ring. rewrite En. assumption.
    - apply Qle_shift_div_r; [assumption|].
      assert (En : (1 * norm == norm)%Q) by ring. rewrite En. assumption. }
  apply elem_of_app in Hx as [Hx|Hx]; eauto.
Qed.

Lemma scaled_offsets_in_unit_interval_witness :
  Forall (λ x, (- (1) <= x <= 1)%Q)
    (vec_div [3%Q; (-4)%Q] (std_max 4%Q 2%Q) ++ vec_div [2%Q; 1%Q] (std_max 4%Q 2%Q)).
Proof.
  apply Forall_forall.
  apply (scaled_offsets_in_unit_interval [3%Q; (-4)%Q] [2%Q; 1%Q] 4%Q 2%Q);
    reflexivity.
Defined.

(** ** What the two fits leave alone *)

(** X20: whenever the forward fit returns, it has added one object to the
    heap and changed nothing that was there, has pointed [_linearWcs] at the
    new object, and has left every member other than [_linearWcs], [_sipA]
    and [_sipB] as it was: matches, box, grid resolution, orders, reverse
    matrices and composite transform. *)
Theorem forward_fit_frame {D Coord : Type} `{DoubleOps D} `{Collaborators D Coord}
    (h h' : heap D) (this this' : CreateWcsWithSip D Coord) :
  _calculateForwardMatrices h this = Ok (h', this') →
  (∃ w, h' = h ++ [w]) ∧ _linearWcs this' = length h ∧
  _matches this' = _matches this ∧ _bbox this' = _bbox this ∧
  _ngrid this' = _ngrid this ∧
  _sipOrder this' = _sipOrder this ∧ _reverseSipOrder this' = _reverseSipOrder this ∧
  _sipAp this' = _sipAp this ∧ _sipBp this' = _sipBp this ∧
  _newWcs this' = _newWcs this.
Proof.
  unfold _calculateForwardMatrices. intros E.
  apply bind_Ok in E as (sol & _ & E).
  apply bind_Ok in E as ([[h1 this1] CDinv] & Er & E).
  apply bind_Ok in E as (AB & _ & E). injection E as <- <-.
  unfold refineLinearWcs in Er.
  apply bind_Ok in Er as (_ & _ & Er). apply bind_Ok in Er as (_ & _ & Er).
  apply bind_Ok in Er as (_ & _ & Er). apply bind_Ok in Er as (CD & _ & Er).
  apply bind_Ok in Er as (crpix & _ & Er). apply bind_Ok in Er as (crval & _ & Er).
  injection Er as <- <- _. simpl. eauto 12.
Qed.

Lemma forward_fit_frame_witness :
  match _calculateForwardMatrices [unitWcs]
          (initialMembers cornerMatches 0%nat 2 emptyBox 7) with
  | Ok (h', this') =>
      (∃ w, h' = [unitWcs] ++ [w]) ∧ _linearWcs this' = 1%nat ∧
      _ngrid this' = 7 ∧ _bbox this' = emptyBox
  | _ => False
  end.
Proof.
  destruct (_calculateForwardMatrices [unitWcs]
              (initialMembers cornerMatches 0%nat 2 emptyBox 7))
    as [[h' this']| |] eqn:E; [|vm_compute in E; discriminate..].
  destruct (forward_fit_frame [unitWcs] h'
              (initialMembers cornerMatches 0%nat 2 emptyBox 7) this' E)
    as (Hh & Hl & _ & Hb & Hg & _).
  split; [exact Hh|]. split; [exact Hl|]. split; [exact Hg|exact Hb].
Defined.

(** X21: whenever the reverse fit returns, it has changed [_sipAp] and
    [_sipBp] only: the forward matrices, the linear transform, the
    composite transform it consulted, the matches, the box, the grid
    resolution and the orders are as they were. *)
Theorem reverse_fit_frame {D Coord : Type} `{DoubleOps D} `{Collaborators D Coord}
    (this this' : CreateWcsWithSip D Coord) :
  _calculateReverseMatrices this = Ok this' →
  _sipA this' = _sipA this ∧ _sipB this' = _sipB this ∧
  _linearWcs this' = _linearWcs this ∧ _newWcs this' = _newWcs this ∧
  _matches this' = _matches this ∧ _bbox this' = _bbox this ∧
  _ngrid this' = _ngrid this ∧
  _sipOrder this' = _sipOrder this ∧ _reverseSipOrder this' = _reverseSipOrder this.
Proof.
  unfold _calculateReverseMatrices. intros E.
  apply bind_Ok in E as ([[norm tmpA] tmpB] & _ & E).
  apply bind_Ok in E as (_ & _ & E).
  apply bind_Ok in E as (AB & _ & E). injection E as <-. simpl. auto 12.
Qed.

Lemma reverse_fit_frame_witness :
  match constructor [unitWcs] cornerMatches 0%nat 2 emptyBox 0 with
  | Ok (h', this') =>
      match _calculateReverseMatrices this' with
      | Ok this'' => _sipA this'' = _sipA this' ∧ _sipB this'' = _sipB this'
      | _ => False
      end
  | _ => False
  end.
Proof.
  destruct (constructor [unitWcs] cornerMatches 0%nat 2 emptyBox 0)
    as [[h' this']| |] eqn:E; [|vm_compute in E; discriminate..].
  destruct (_calculateReverseMatrices this') as [this''| |] eqn:E'.
  - destruct (reverse_fit_frame this' this'' E') as (HA & HB & _).
    split; assumption.
  - vm_compute in E. injection E as <- <-. vm_compute in E'. discriminate.
  - vm_compute in E. injection E as <- <-. vm_compute in E'. discriminate.
Defined.
